(** * tts_interface: the voice catalogue and the synthesis request of [app.py]

    A shallow embedding of [src/app.py] (a Streamlit front-end of the Google
    Cloud Text-to-Speech API) and the properties its specification states
    about it.

    - Python [str] values are sequences of Unicode code points: [str] is
      [list N].  ASCII literals are written [py "..."].
    - [dict] values are finite maps ([gmap]); the lists stored in them are
      Rocq lists, appended at the end as [list.append] does.
    - The remote provider, the Streamlit page and the [st.cache_data] store
      are explicit: every function that touches them is a state transformer
      over a [World] that records the remote calls issued and the elements
      rendered so far. *)

From Stdlib Require Import NArith ZArith QArith String Ascii.
From stdpp Require Import gmap list fin_maps sorting.

Local Open Scope N_scope.
Local Open Scope list_scope.

(** ** Python strings *)

Module PyStr.

Definition char := N.
Definition str := list N.

(** An ASCII literal as a Python string. *)
Definition py (s : string) : str :=
  (fun a => N_of_ascii a) <$> list_ascii_of_string s.

(** ["-"] *)
Definition hyphen : char := 45.

(** [s.split(sep)] for a separator of one character: the pieces between
    the occurrences of [sep]; empty pieces are kept, and the result is
    never the empty list ([""], split, is [[""]]). *)
Fixpoint split (sep : char) (s : str) : list str :=
  match s with
  | [] => [[]]
  | c :: s' =>
      if N.eqb c sep then [] :: split sep s'
      else match split sep s' with
           | [] => [[c]]
           | seg :: segs => (c :: seg) :: segs
           end
  end.

(** [sep.join(parts)] *)
Fixpoint join (sep : str) (parts : list str) : str :=
  match parts with
  | [] => []
  | [p] => p
  | p :: ps => p ++ sep ++ join sep ps
  end.

(** [str.isspace] of one character: the code points CPython's
    [_PyUnicode_IsWhitespace] accepts. *)
Definition isspace (c : char) : bool :=
  ((9 <=? c) && (c <=? 13)) || ((28 <=? c) && (c <=? 32))
  || (c =? 133) || (c =? 160) || (c =? 5760)
  || ((8192 <=? c) && (c <=? 8202))
  || (c =? 8232) || (c =? 8233) || (c =? 8239) || (c =? 8287)
  || (c =? 12288).

(** [s.lstrip()], [s.rstrip()], [s.strip()] *)
Fixpoint lstrip (s : str) : str :=
  match s with
  | c :: s' => if isspace c then lstrip s' else s
  | [] => []
  end.

Definition rstrip (s : str) : str := rev (lstrip (rev s)).

Definition strip (s : str) : str := rstrip (lstrip s).

(** Truth value of a string, a list or a byte sequence: non-empty. *)
Definition truthy {A} (l : list A) : bool :=
  match l with [] => false | _ => true end.

(** ASCII case mapping.  [capitalize] is only ever applied to the name of
    an enumerant, which is made of ASCII capitals and underscores; other
    code points are left as they are. *)
Definition upper (c : char) : char :=
  if (97 <=? c) && (c <=? 122) then c - 32 else c.

Definition lower (c : char) : char :=
  if (65 <=? c) && (c <=? 90) then c + 32 else c.

(** [s.capitalize()]: first character in upper case, the rest in lower
    case. *)
Definition capitalize (s : str) : str :=
  match s with
  | [] => []
  | c :: s' => upper c :: (lower <$> s')
  end.

(** Number of occurrences of a character. *)
Fixpoint count (c : char) (s : str) : nat :=
  match s with
  | [] => 0%nat
  | d :: s' => if N.eqb d c then S (count c s') else count c s'
  end.

(** A code point UTF-8 has an encoding for: any but a surrogate.  A [str]
    may hold surrogates on their own; [s.encode("utf-8")] then raises. *)
Definition scalar (c : char) : bool :=
  negb ((55296 <=? c) && (c <=? 57343)).

Definition encodable (s : str) : bool := forallb scalar s.

End PyStr.
Import PyStr.

(** ** The language code of a request

    [app.py], line 85: ["-".join(voice_name.split("-")[:2])]. *)

Definition language_code (voice_name : str) : str :=
  join [hyphen] (take 2 (split hyphen voice_name)).


(** ** The provider's data ([google.cloud.texttospeech]) *)

Inductive SsmlVoiceGender :=
| SSML_VOICE_GENDER_UNSPECIFIED
| MALE
| FEMALE
| NEUTRAL.

(** [SsmlVoiceGender(value)]: the enumerant of a wire value; Python raises
    [ValueError] where this is [None]. *)
Definition SsmlVoiceGender_of (value : Z) : option SsmlVoiceGender :=
  match value with
  | 0%Z => Some SSML_VOICE_GENDER_UNSPECIFIED
  | 1%Z => Some MALE
  | 2%Z => Some FEMALE
  | 3%Z => Some NEUTRAL
  | _ => None
  end.

(** [gender.name] *)
Definition enum_name (g : SsmlVoiceGender) : str :=
  match g with
  | SSML_VOICE_GENDER_UNSPECIFIED => py "SSML_VOICE_GENDER_UNSPECIFIED"
  | MALE => py "MALE"
  | FEMALE => py "FEMALE"
  | NEUTRAL => py "NEUTRAL"
  end.

Record Voice := {
  name : str;
  language_codes : list str;
  ssml_gender : Z
}.

Inductive AudioEncoding :=
| AUDIO_ENCODING_UNSPECIFIED
| LINEAR16
| MP3
| OGG_OPUS
| MULAW
| ALAW.

Definition bytes := list Byte.byte.

Record SynthesisInput := { text : str }.

Record VoiceSelectionParams := {
  voice_name : str;
  voice_language_code : str
}.

Record AudioConfig := {
  audio_encoding : AudioEncoding;
  speaking_rate : Q;
  pitch : Q
}.

Record SynthesizeSpeechRequest := {
  input : SynthesisInput;
  voice : VoiceSelectionParams;
  audio_config : AudioConfig
}.

Record SynthesizeSpeechResponse := { audio_content : bytes }.

(** ** Exceptions, remote calls and page elements *)

Inductive Exception :=
| IndexError                 (* [language_codes[0]] of an empty list *)
| ValueError (value : Z)     (* [SsmlVoiceGender(value)] of an unknown value *)
| ApiError (message : str)   (* raised by a call of the client *)
| EncodeError (s : str).     (* a string field given a [str] it cannot encode *)

Inductive outcome (A : Type) :=
| Returned (a : A)
| Raised (e : Exception).
Arguments Returned {A} a.
Arguments Raised {A} e.

(** A remote call, as the provider sees it. *)
Inductive Rpc :=
| ListVoices
| SynthesizeSpeech (request : SynthesizeSpeechRequest).

(** The provider behind [client].  What it answers may depend on the calls
    it has received before. *)
Record Client := {
  list_voices_reply : list Rpc -> outcome (list Voice);
  synthesize_speech_reply :
    list Rpc -> SynthesizeSpeechRequest -> outcome SynthesizeSpeechResponse
}.

(** What the page shows.  [st_error msg (Some e)] is
    [st.error(f"<msg>{e}")]. *)
Inductive Element :=
| st_error (msg : str) (e : option Exception)
| st_warning (msg : str)
| st_success (msg : str)
| st_audio (data : bytes) (format : str)
| st_download_button (label : str) (data : bytes) (file_name mime : str).

(** The catalogue: language code to [(name, display_name)] pairs. *)
Abbreviation Catalog := (gmap str (list (str * str))).

Record World := {
  calls : list Rpc;
  page : list Element;
  cache : option (Catalog * list Element)
}.

Definition M (A : Type) : Type := World -> A * World.

Definition ret {A} (a : A) : M A := fun w => (a, w).

Definition bind {A B} (m : M A) (k : A -> M B) : M B :=
  fun w => let '(a, w1) := m w in k a w1.

Notation "'do' x <- m ; k" := (bind m (fun x => k))
  (at level 10, x name, m at level 100, k at level 200).
Notation "'run' m ; k" := (bind m (fun _ => k))
  (at level 10, m at level 100, k at level 200).

Definition render (el : Element) : M unit :=
  fun w => (tt, {| calls := calls w; page := page w ++ [el]; cache := cache w |}).

Definition call_list_voices (client : Client) : M (outcome (list Voice)) :=
  fun w =>
    (list_voices_reply client (calls w),
     {| calls := calls w ++ [ListVoices]; page := page w; cache := cache w |}).

Definition call_synthesize_speech (client : Client)
    (request : SynthesizeSpeechRequest) : M (outcome SynthesizeSpeechResponse) :=
  fun w =>
    (synthesize_speech_reply client (calls w) request,
     {| calls := calls w ++ [SynthesizeSpeech request];
        page := page w; cache := cache w |}).

(** Modelled from the spec: the [st.cache_data] decorator of line 51, whose
    code (Streamlit) is not part of the repository.  The value the first
    call returns is memoized for the rest of the process and a later call
    returns it without running the body; nothing invalidates the entry.
    The body takes no argument, so there is one entry.  As Streamlit does,
    the entry keeps the elements the body rendered and a later call renders
    them again. *)
Definition cache_data (body : M Catalog) : M Catalog :=
  fun w =>
    match cache w with
    | Some (value, rendered) =>
        (value, {| calls := calls w; page := page w ++ rendered; cache := cache w |})
    | None =>
        let '(value, w1) := body {| calls := calls w; page := []; cache := None |} in
        (value, {| calls := calls w1; page := page w ++ page w1;
                   cache := Some (value, page w1) |})
    end.

(** ** [get_voices] ([app.py], lines 51 to 75) *)

(** [f"{name} ({gender})"] *)
Definition display_name_of (name gender : str) : str :=
  name ++ py " (" ++ gender ++ py ")".

(** One turn of the loop of lines 60 to 71. *)
Definition format_voice (formatted_voices : Catalog) (voice : Voice)
    : outcome Catalog :=
  match language_codes voice with
  | [] => Raised IndexError
  | language :: _ =>
      match SsmlVoiceGender_of (ssml_gender voice) with
      | None => Raised (ValueError (ssml_gender voice))
      | Some g =>
          let gender := capitalize (enum_name g) in
          let formatted_voices :=
            match formatted_voices !! language with
            | None => <[language := []]> formatted_voices
            | Some _ => formatted_voices
            end in
          let display_name := display_name_of (name voice) gender in
          Returned
            (alter (fun l => l ++ [(name voice, display_name)]) language
               formatted_voices)
      end
  end.

Fixpoint for_voices (formatted_voices : Catalog) (voice_list : list Voice)
    : outcome Catalog :=
  match voice_list with
  | [] => Returned formatted_voices
  | voice :: rest =>
      match format_voice formatted_voices voice with
      | Raised e => Raised e
      | Returned formatted_voices' => for_voices formatted_voices' rest
      end
  end.

(** The [try] block. *)
Definition get_voices_try (client : Client) : M (outcome Catalog) :=
  do voices_response <- call_list_voices client;
  match voices_response with
  | Raised e => ret (Raised e)
  | Returned voice_list => ret (for_voices ∅ voice_list)
  end.

(** The function as written, without its decorator. *)
Definition get_voices_body (client : Client) : M Catalog :=
  do r <- get_voices_try client;
  match r with
  | Returned formatted_voices => ret formatted_voices
  | Raised e =>
      run render (st_error (py "Could not fetch voices from Google API: ") (Some e));
      ret ∅
  end.

Definition get_voices (client : Client) : M Catalog :=
  cache_data (get_voices_body client).

(** ** [synthesize_speech] ([app.py], lines 78 to 100) *)

(** [texttospeech.SynthesisInput(text=text)].  The messages of the library
    store a string as UTF-8: a constructor raises when it is given a [str]
    that has no encoding. *)
Definition new_SynthesisInput (text : str) : outcome SynthesisInput :=
  if encodable text then Returned {| text := text |}
  else Raised (EncodeError text).

(** [texttospeech.VoiceSelectionParams(name=..., language_code=...)] *)
Definition new_VoiceSelectionParams (name language_code : str)
    : outcome VoiceSelectionParams :=
  if encodable name then
    if encodable language_code then
      Returned {| voice_name := name; voice_language_code := language_code |}
    else Raised (EncodeError language_code)
  else Raised (EncodeError name).

(** The request of lines 81 to 96, for parts that could be built. *)
Definition synthesis_request (text voice_name : str) (speaking_rate pitch : Q)
    : SynthesizeSpeechRequest :=
  let synthesis_input := {| text := text |} in
  let voice_params :=
    {| voice_name := voice_name;
       voice_language_code := language_code voice_name |} in
  let audio_config :=
    {| audio_encoding := MP3; speaking_rate := speaking_rate; pitch := pitch |} in
  {| input := synthesis_input; voice := voice_params; audio_config := audio_config |}.

(** The [try] block, lines 81 to 97: the three parts of the request are
    built, in this order, before the call; whatever one of them raises
    ends the block without a call. *)
Definition synthesize_speech_try (client : Client) (text voice_name : str)
    (speaking_rate pitch : Q) : M (outcome bytes) :=
  match new_SynthesisInput text with
  | Raised e => ret (Raised e)
  | Returned synthesis_input =>
      match new_VoiceSelectionParams voice_name (language_code voice_name) with
      | Raised e => ret (Raised e)
      | Returned voice_params =>
          let audio_config :=
            {| audio_encoding := MP3; speaking_rate := speaking_rate;
               pitch := pitch |} in
          do response <- call_synthesize_speech client
                           {| input := synthesis_input; voice := voice_params;
                              audio_config := audio_config |};
          match response with
          | Returned response => ret (Returned (audio_content response))
          | Raised e => ret (Raised e)
          end
      end
  end.

(** [None] is Python's [None]. *)
Definition synthesize_speech (client : Client) (text voice_name : str)
    (speaking_rate pitch : Q) : M (option bytes) :=
  do r <- synthesize_speech_try client text voice_name speaking_rate pitch;
  match r with
  | Returned audio => ret (Some audio)
  | Raised e => run render (st_error (py "API call failed: ") (Some e)); ret None
  end.

(** ** The page ([app.py], lines 108 to 179) *)

(** Line 118: [{display: name for name, display in voice_options}]; a later
    pair replaces an earlier one with the same display name. *)
Definition voice_display_map (voice_options : list (str * str)) : gmap str str :=
  foldl (fun m '(name, display) => <[display := name]> m) ∅ voice_options.

(** Line 121: the options of the voice selector. *)
Definition voice_selector_options (voice_options : list (str * str)) : list str :=
  snd <$> voice_options.

(** Lines 152 to 179, what a press of the button does.  The selected voice,
    rate and pitch are the variables the sidebar has set. *)
Definition generate_audio (client : Client) (input_text : str)
    (available_voices : Catalog) (selected_voice_name : str)
    (speaking_rate pitch : Q) : M unit :=
  if negb (truthy (strip input_text)) then
    render (st_warning (py "Please enter some text to generate audio."))
  else if bool_decide (available_voices = ∅) then
    render (st_error
              (py "Cannot generate audio because voice list is unavailable.") None)
  else
    do audio_content <- synthesize_speech client input_text selected_voice_name
                          speaking_rate pitch;
    match audio_content with
    | Some (b :: data) =>
        run render (st_success (py "Audio generated successfully!"));
        run render (st_audio (b :: data) (py "audio/mp3"));
        render (st_download_button (py "Download MP3") (b :: data)
                  (py "generated_speech.mp3") (py "audio/mpeg"))
    | _ =>
        render (st_error
                  (py "Failed to generate audio. Please check the logs or your API credentials.")
                  None)
    end.

(** ** The sidebar ([app.py], lines 108 to 141) *)

(** The order of [str]: code point by code point, a prefix first. *)
Fixpoint str_leb (a b : str) : bool :=
  match a, b with
  | [], _ => true
  | _ :: _, [] => false
  | x :: a', y :: b' =>
      if N.ltb x y then true
      else if N.ltb y x then false
      else str_leb a' b'
  end.

Definition str_le (a b : str) : Prop := str_leb a b = true.

#[local] Instance str_le_dec : RelDecision str_le :=
  fun a b => decide (str_leb a b = true).

(** [d.keys()].  A [gmap] does not keep the order of insertion; the keys
    are only ever read through [sorted], whose result does not depend on
    it. *)
Definition keys (d : Catalog) : list str := (map_to_list d).*1.

(** [sorted(l)] *)
Definition sorted (l : list str) : list str := merge_sort str_le l.

(** [l.index(x)]: the first position of [x]; Python raises [ValueError]
    where this is [None]. *)
Fixpoint index (x : str) (l : list str) : option nat :=
  match l with
  | [] => None
  | y :: l' => if decide (y = x) then Some 0%nat else S <$> index x l'
  end.

(** An exception that no [try] block of the script catches: the run of the
    script ends with it. *)
Inductive Uncaught :=
| NotInList (x : str)   (* the [ValueError] of [list.index] *)
| KeyError.             (* a subscript of a dict with a key it lacks *)

(** [st.selectbox(label, options, index)]: the option the user has picked,
    [options[index]] as long as there is no pick, and [None] when there is
    no option.  A pick is a position among the options. *)
Definition selectbox {A} (options : list A) (index : nat) (pick : option nat)
    : option A :=
  match pick with
  | Some k =>
      match options !! k with
      | Some o => Some o
      | None => options !! index
      end
  | None => options !! index
  end.

(** [st.slider(label, min_value, max_value, value, step)]: the value the
    user has set, [min_value] plus a number of steps and not above
    [max_value]; [value] as long as nothing is set. *)
Definition slider (min_value max_value value step : Q) (pick : option nat) : Q :=
  match pick with
  | Some k =>
      let v := (min_value + inject_Z (Z.of_nat k) * step)%Q in
      if Qle_bool v max_value then v else value
  | None => value
  end.

(** What the user has done to the widgets. *)
Record Picks := {
  pick_language : option nat;
  pick_voice : option nat;
  pick_rate : option nat;
  pick_pitch : option nat
}.

(** The variables the sidebar sets. *)
Record Selection := {
  selected_language : str;
  selected_voice_name : str;
  selected_speaking_rate : Q;
  selected_pitch : Q
}.

(** Lines 109 to 141.  [inr None]: the catalogue is empty and the block is
    skipped, the variables stay unbound. *)
Definition sidebar (available_voices : Catalog) (picks : Picks)
    : Uncaught + option Selection :=
  if bool_decide (available_voices = ∅) then inr None
  else
    let options := sorted (keys available_voices) in
    match index (py "en-US") options with
    | None => inl (NotInList (py "en-US"))
    | Some i =>
        match selectbox options i (pick_language picks) with
        | None => inl KeyError
        | Some selected_language =>
            match available_voices !! selected_language with
            | None => inl KeyError
            | Some voice_options =>
                let display_map := voice_display_map voice_options in
                match selectbox (voice_selector_options voice_options) 0
                        (pick_voice picks) with
                | None => inl KeyError
                | Some selected_display_voice =>
                    match display_map !! selected_display_voice with
                    | None => inl KeyError
                    | Some selected_voice_name =>
                        let speaking_rate :=
                          slider (1 # 4) 4 1 (1 # 4) (pick_rate picks) in
                        let pitch :=
                          slider (- (20)) 20 0 1 (pick_pitch picks) in
                        inr (Some
                               {| selected_language := selected_language;
                                  selected_voice_name := selected_voice_name;
                                  selected_speaking_rate := speaking_rate;
                                  selected_pitch := pitch |})
                    end
                end
            end
        end
    end.

(** ** One run of the script ([app.py], lines 108 to 179)

    The script runs from top to bottom at every interaction: it fetches the
    catalogue, builds the sidebar and, when the button has been pressed,
    handles the press.  With an empty catalogue the handler reads none of
    the variables of the sidebar; they are passed as empty values. *)
Definition run_page (client : Client) (picks : Picks) (input_text : str)
    (pressed : bool) : M (Uncaught + unit) :=
  do available_voices <- get_voices client;
  match sidebar available_voices picks with
  | inl e => ret (inl e)
  | inr selection =>
      if pressed then
        match selection with
        | Some s =>
            run generate_audio client input_text available_voices
                  (selected_voice_name s) (selected_speaking_rate s)
                  (selected_pitch s);
            ret (inr tt)
        | None =>
            run generate_audio client input_text available_voices [] 0 0;
            ret (inr tt)
        end
      else ret (inr tt)
  end.

(** ** Notions the properties are stated with *)

(** The word the display name shows for a gender. *)
Definition gender_word (g : SsmlVoiceGender) : str :=
  match g with
  | SSML_VOICE_GENDER_UNSPECIFIED => py "Ssml_voice_gender_unspecified"
  | MALE => py "Male"
  | FEMALE => py "Female"
  | NEUTRAL => py "Neutral"
  end.

(** The primary language of a voice: its first language code. *)
Definition first_language (v : Voice) : option str := head (language_codes v).

(** A voice the loop can format: it has a language code and its gender is
    an enumerant. *)
Definition well_formed (v : Voice) : Prop :=
  language_codes v ≠ [] ∧ is_Some (SsmlVoiceGender_of (ssml_gender v)).

(** The language and the [(name, display_name)] pair of a voice. *)
Definition entry_of (v : Voice) : option (str * (str * str)) :=
  match first_language v, SsmlVoiceGender_of (ssml_gender v) with
  | Some language, Some g =>
      Some (language, (name v, display_name_of (name v) (gender_word g)))
  | _, _ => None
  end.

(** The pairs filed under a language, in order. *)
Definition bucket_of (language : str) (es : list (str * (str * str)))
    : list (str * str) :=
  snd <$> filter (fun e => e.1 = language) es.

(** A bucket exists as soon as it has an entry. *)
Definition nonempty {A} (l : list A) : option (list A) :=
  match l with
  | [] => None
  | _ => Some l
  end.

(** A bucket, absent or not, with more pairs filed at its end. *)
Definition extend {A} (bucket : option (list A)) (more : list A)
    : option (list A) :=
  match more with
  | [] => bucket
  | _ => Some (default [] bucket ++ more)
  end.

(** Text that is empty or made of whitespace only. *)
Definition blank (s : str) : Prop := Forall (fun c => isspace c = true) s.

#[local] Instance blank_dec (s : str) : Decision (blank s) :=
  Forall_dec (fun c => isspace c = true) s.

(** The preconditions the specification lists for a request. *)
Definition known_voice (catalog : Catalog) (voice_name : str) : Prop :=
  ∃ language bucket label,
    catalog !! language = Some bucket ∧ (voice_name, label) ∈ bucket.

Definition rate_in_range (r : Q) : Prop := (1 # 4 <= r)%Q ∧ (r <= 4)%Q.

Definition pitch_in_range (p : Q) : Prop := (- (20) <= p)%Q ∧ (p <= 20)%Q.

(** What the process can do to the world: fetch the catalogue, synthesize,
    or handle a press of the button, with any arguments. *)
Inductive step (client : Client) : World -> World -> Prop :=
| step_get_voices w :
    step client w (get_voices client w).2
| step_synthesize_speech w text voice_name speaking_rate pitch :
    step client w
      (synthesize_speech client text voice_name speaking_rate pitch w).2
| step_generate_audio w input_text available_voices voice_name speaking_rate pitch :
    step client w
      (generate_audio client input_text available_voices voice_name
         speaking_rate pitch w).2.

(** The number of pairs a catalogue holds. *)
Definition entries (m : Catalog) : nat :=
  sum_list_with (fun kb => length kb.2) (map_to_list m).

(** The requests among the calls. *)
Definition requests (rpcs : list Rpc) : list SynthesizeSpeechRequest :=
  omap (fun rpc =>
          match rpc with
          | SynthesizeSpeech request => Some request
          | ListVoices => None
          end) rpcs.

(** The exception the loop raises on a voice it cannot format. *)
Definition format_error (v : Voice) : Exception :=
  match language_codes v with
  | [] => IndexError
  | _ => ValueError (ssml_gender v)
  end.

(** ** Sample data *)

Module Sample.

Definition wavenet_f : Voice :=
  {| name := py "en-US-Wavenet-F"; language_codes := [py "en-US"];
     ssml_gender := 2 |}.

Definition standard_a : Voice :=
  {| name := py "fr-FR-Standard-A"; language_codes := [py "fr-FR"; py "fr-CA"];
     ssml_gender := 1 |}.

Definition wavenet_a : Voice :=
  {| name := py "en-US-Wavenet-A"; language_codes := [py "en-US"];
     ssml_gender := 3 |}.

(** A voice without any language code. *)
Definition no_language : Voice :=
  {| name := py "xx-Test-A"; language_codes := []; ssml_gender := 1 |}.

Definition mp3 : bytes := [Byte.x49; Byte.x44; Byte.x33].

(** A provider that lists three voices and synthesizes [mp3]. *)
Definition client : Client :=
  {| list_voices_reply := fun _ => Returned [wavenet_f; standard_a; wavenet_a];
     synthesize_speech_reply := fun _ _ => Returned {| audio_content := mp3 |} |}.

(** A provider whose calls all fail. *)
Definition down : Client :=
  {| list_voices_reply := fun _ => Raised (ApiError (py "503 unavailable"));
     synthesize_speech_reply := fun _ _ => Raised (ApiError (py "503 unavailable")) |}.

(** A provider one of whose voices has no language code. *)
Definition odd : Client :=
  {| list_voices_reply := fun _ => Returned [wavenet_f; no_language];
     synthesize_speech_reply := fun _ _ => Returned {| audio_content := mp3 |} |}.

Definition start : World := {| calls := []; page := []; cache := None |}.

(** A provider that lists one French voice only. *)
Definition french : Client :=
  {| list_voices_reply := fun _ => Returned [standard_a];
     synthesize_speech_reply := fun _ _ => Returned {| audio_content := mp3 |} |}.

(** A provider that answers a synthesis with no audio at all. *)
Definition silent : Client :=
  {| list_voices_reply := fun _ => Returned [wavenet_f; standard_a; wavenet_a];
     synthesize_speech_reply := fun _ _ => Returned {| audio_content := [] |} |}.

(** The widgets untouched. *)
Definition no_pick : Picks :=
  {| pick_language := None; pick_voice := None;
     pick_rate := None; pick_pitch := None |}.

(** The second language, its first voice, rate 2.0 and pitch -5.0. *)
Definition picked : Picks :=
  {| pick_language := Some 1%nat; pick_voice := Some 0%nat;
     pick_rate := Some 7%nat; pick_pitch := Some 15%nat |}.

Definition catalog : Catalog :=
  {[ py "en-US" := [(py "en-US-Wavenet-F", py "en-US-Wavenet-F (Female)")] ]}.

End Sample.

(** * Properties *)

(** ** Strings *)

Section Split.

Variable sep : char.

Lemma split_not_nil (s : str) : split sep s ≠ [].
Proof.
  destruct s as [|c s]; simpl; [done|].
  destruct (N.eqb c sep); [done|].
  by destruct (split sep s).
Qed.

Lemma split_cons_sep (s : str) : split sep (sep :: s) = [] :: split sep s.
Proof. simpl. by rewrite N.eqb_refl. Qed.

Lemma split_cons_other (c : char) (s : str) :
  c ≠ sep →
  split sep (c :: s) =
    match split sep s with
    | [] => [[c]]
    | seg :: segs => (c :: seg) :: segs
    end.
Proof. intros Hc. simpl. by apply N.eqb_neq in Hc as ->. Qed.

(** Joining the pieces gives the string back. *)
Lemma join_split (s : str) : join [sep] (split sep s) = s.
Proof.
  induction s as [|c s IH]; [done|].
  simpl. destruct (N.eqb_spec c sep) as [->|Hc].
  - pose proof (split_not_nil s).
    simpl. destruct (split sep s) as [|seg segs]; [done|].
    by rewrite IH.
  - pose proof (split_not_nil s).
    destruct (split sep s) as [|seg segs]; [done|].
    destruct segs as [|seg' segs]; simpl in *; by rewrite <- IH.
Qed.

(** No piece holds the separator. *)
Lemma split_sep_free (s : str) : Forall (fun seg => sep ∉ seg) (split sep s).
Proof.
  induction s as [|c s IH]; simpl.
  - repeat constructor. apply not_elem_of_nil.
  - destruct (N.eqb_spec c sep) as [->|Hc].
    + constructor; [apply not_elem_of_nil | done].
    + destruct (split sep s) as [|seg segs].
      * repeat constructor. by intros ->%list_elem_of_singleton.
      * inversion IH as [|? ? Hseg Hsegs]; subst.
        constructor; [|done].
        rewrite elem_of_cons. by intros [->|?].
Qed.

Lemma split_app_free (seg rest : str) :
  sep ∉ seg →
  split sep (seg ++ sep :: rest) = seg :: split sep rest.
Proof.
  induction seg as [|c seg IH]; intros Hfree.
  - apply split_cons_sep.
  - apply not_elem_of_cons in Hfree as [Hc Hfree].
    rewrite <- app_comm_cons, split_cons_other by done.
    by rewrite IH.
Qed.

Lemma split_free (seg : str) : sep ∉ seg → split sep seg = [seg].
Proof.
  induction seg as [|c seg IH]; intros Hfree; [done|].
  apply not_elem_of_cons in Hfree as [Hc Hfree].
  rewrite split_cons_other by done.
  by rewrite IH.
Qed.

(** Pieces without separator, joined and split again, are the pieces. *)
Lemma split_join (segs : list str) :
  segs ≠ [] →
  Forall (fun seg => sep ∉ seg) segs →
  split sep (join [sep] segs) = segs.
Proof.
  induction segs as [|seg segs IH]; [done|].
  intros _ Hfree. inversion Hfree as [|? ? Hseg Hsegs]; subst.
  destruct segs as [|seg' segs].
  - by apply split_free.
  - change (join [sep] (seg :: seg' :: segs))
      with (seg ++ sep :: join [sep] (seg' :: segs)).
    rewrite split_app_free by done.
    by rewrite IH.
Qed.

Lemma split_length_count (s : str) :
  length (split sep s) = S (count sep s).
Proof.
  induction s as [|c s IH]; [done|].
  simpl. destruct (N.eqb c sep); simpl; [by rewrite IH|].
  pose proof (split_not_nil s).
  destruct (split sep s); [done|]. simpl in *. lia.
Qed.

End Split.

Lemma language_code_short (voice_name : str) :
  (length (split hyphen voice_name) ≤ 2)%nat →
  language_code voice_name = voice_name.
Proof.
  intros Hlen. unfold language_code.
  rewrite take_ge by done.
  apply join_split.
Qed.

Example language_code_wavenet :
  language_code (py "en-US-Wavenet-F") = py "en-US".
Proof. reflexivity. Qed.

Lemma lstrip_nil_iff (s : str) : lstrip s = [] ↔ blank s.
Proof.
  unfold blank. induction s as [|c s IH]; simpl.
  - split; [constructor | done].
  - destruct (isspace c) eqn:Hc.
    + rewrite IH. split; [by constructor | by inversion 1].
    + split; [done | inversion 1; congruence].
Qed.

Lemma lstrip_idemp (s : str) : lstrip (lstrip s) = lstrip s.
Proof.
  induction s as [|c s IH]; [done|].
  simpl. destruct (isspace c) eqn:Hc; [done|].
  simpl. by rewrite Hc.
Qed.

(** [strip] leaves nothing exactly of the blank strings. *)
Lemma strip_nil_iff (s : str) : strip s = [] ↔ blank s.
Proof.
  unfold strip, rstrip. split.
  - intros H. apply (f_equal (@rev char)) in H. rewrite rev_involutive in H.
    simpl in H. apply lstrip_nil_iff in H.
    assert (blank (lstrip s)) as Hb.
    { unfold blank in *. rewrite Forall_forall in *. intros c Hin.
      apply H. rewrite list_elem_of_In in *. by apply in_rev in Hin. }
    apply lstrip_nil_iff in Hb. rewrite lstrip_idemp in Hb.
    by apply lstrip_nil_iff.
  - intros H. apply lstrip_nil_iff in H. by rewrite H.
Qed.

Lemma truthy_false {A} (l : list A) : truthy l = false ↔ l = [].
Proof. by destruct l. Qed.

(** ** The synthesis request *)

(** The language code is a prefix of the voice name. *)
Lemma language_code_prefix (voice_name : str) :
  ∃ rest, voice_name = language_code voice_name ++ rest.
Proof.
  pose proof (join_split hyphen voice_name) as Hjoin.
  unfold language_code.
  destruct (split hyphen voice_name) as [|a [|b [|c segs]]].
  - by exists voice_name.
  - exists []. simpl in *. by rewrite app_nil_r.
  - exists []. rewrite app_nil_r. by rewrite <- Hjoin.
  - exists (hyphen :: join [hyphen] (c :: segs)).
    rewrite <- Hjoin at 1.
    change (join [hyphen] (a :: b :: c :: segs))
      with (a ++ hyphen :: (b ++ hyphen :: join [hyphen] (c :: segs))).
    change (join [hyphen] (take 2 (a :: b :: c :: segs)))
      with (a ++ hyphen :: b).
    by rewrite <- app_assoc.
Qed.

(** So it can be encoded when the name can. *)
Lemma encodable_language_code (voice_name : str) :
  encodable voice_name = true → encodable (language_code voice_name) = true.
Proof.
  destruct (language_code_prefix voice_name) as [rest Hname].
  rewrite Hname at 1. unfold encodable. rewrite forallb_app.
  by intros [? _]%andb_prop.
Qed.

(** [synthesize_speech], in full: with text and voice name that can be
    encoded the request is built and sent; otherwise nothing is sent and
    the error of the part that could not be built is shown. *)
Lemma synthesize_speech_run (client : Client) (txt name : str)
    (rate semitones : Q) (w : World) :
  synthesize_speech client txt name rate semitones w
  = if encodable txt && encodable name then
      let request := synthesis_request txt name rate semitones in
      match synthesize_speech_reply client (calls w) request with
      | Returned response =>
          (Some (audio_content response),
           {| calls := calls w ++ [SynthesizeSpeech request];
              page := page w; cache := cache w |})
      | Raised e =>
          (None,
           {| calls := calls w ++ [SynthesizeSpeech request];
              page := page w ++ [st_error (py "API call failed: ") (Some e)];
              cache := cache w |})
      end
    else
      (None,
       {| calls := calls w;
          page := page w
                  ++ [st_error (py "API call failed: ")
                        (Some (EncodeError (if encodable txt then name else txt)))];
          cache := cache w |}).
Proof.
  unfold synthesize_speech, synthesize_speech_try, new_SynthesisInput,
    new_VoiceSelectionParams, bind.
  destruct (encodable txt); [|done].
  destruct (encodable name) eqn:Hname; [|done].
  rewrite (encodable_language_code name Hname). simpl.
  unfold call_synthesize_speech, synthesis_request.
  by destruct (synthesize_speech_reply _ _ _).
Qed.

(** C2: the language code [synthesize_speech] sends to the provider is a
    function of the voice name alone: whenever the name is made of the
    hyphen-separated segments [segs], its language code is the first two
    of them joined by a hyphen, and the one request that is sent, when text
    and name can be encoded, carries it; for "en-US-Wavenet-F" it is
    "en-US". *)
Theorem synthesize_speech_language_code (client : Client)
    (txt name : str) (rate semitones : Q) (w : World) (segs : list str) :
  segs ≠ [] →
  Forall (fun seg => hyphen ∉ seg) segs →
  name = join [hyphen] segs →
  let request := synthesis_request txt name rate semitones in
  language_code name = join [hyphen] (take 2 segs)
  ∧ voice_language_code (voice request) = join [hyphen] (take 2 segs)
  ∧ calls (synthesize_speech client txt name rate semitones w).2
    = calls w
      ++ (if encodable txt && encodable name then [SynthesizeSpeech request]
          else [])
  ∧ language_code (py "en-US-Wavenet-F") = py "en-US".
Proof.
  intros Hne Hfree -> request. subst request.
  assert (language_code (join [hyphen] segs) = join [hyphen] (take 2 segs))
    as Hcode by (unfold language_code; by rewrite split_join).
  split; [done|]. split; [done|]. split; [|reflexivity].
  rewrite synthesize_speech_run.
  destruct (encodable txt && encodable _); simpl.
  - by destruct (synthesize_speech_reply _ _ _).
  - by rewrite app_nil_r.
Qed.

Lemma synthesize_speech_language_code_witness :
  let request :=
    synthesis_request (py "Hello") (py "en-US-Wavenet-F") 1 0 in
  language_code (py "en-US-Wavenet-F") = py "en-US"
  ∧ voice_language_code (voice request) = py "en-US"
  ∧ calls (synthesize_speech Sample.client (py "Hello") (py "en-US-Wavenet-F")
             1 0 Sample.start).2
    = [SynthesizeSpeech request]
  ∧ language_code (py "en-US-Wavenet-F") = py "en-US".
Proof.
  apply (synthesize_speech_language_code Sample.client (py "Hello")
           (py "en-US-Wavenet-F") 1 0 Sample.start
           [py "en"; py "US"; py "Wavenet"; py "F"]).
  - discriminate.
  - apply (bool_decide_unpack _). by vm_compute.
  - reflexivity.
Defined.

(** C10: for a voice name of fewer than two hyphen-separated segments the
    derivation does not fail and gives the whole name back; the request
    that is sent, when text and name can be encoded, carries the name as
    its language code. *)
Theorem language_code_of_short_name (client : Client)
    (txt name : str) (rate semitones : Q) (w : World) :
  (length (split hyphen name) < 2)%nat →
  let request := synthesis_request txt name rate semitones in
  language_code name = name
  ∧ voice_language_code (voice request) = name
  ∧ calls (synthesize_speech client txt name rate semitones w).2
    = calls w
      ++ (if encodable txt && encodable name then [SynthesizeSpeech request]
          else []).
Proof.
  intros Hlen request. subst request.
  assert (language_code name = name) as Hcode
    by (apply language_code_short; lia).
  split; [done|]. split; [done|].
  rewrite synthesize_speech_run.
  destruct (encodable txt && encodable _); simpl.
  - by destruct (synthesize_speech_reply _ _ _).
  - by rewrite app_nil_r.
Qed.

Lemma language_code_of_short_name_witness :
  let request := synthesis_request (py "Hello") (py "default") 1 0 in
  language_code (py "default") = py "default"
  ∧ voice_language_code (voice request) = py "default"
  ∧ calls (synthesize_speech Sample.client (py "Hello") (py "default")
             1 0 Sample.start).2
    = [SynthesizeSpeech request].
Proof.
  apply (language_code_of_short_name Sample.client (py "Hello") (py "default")
           1 0 Sample.start).
  vm_compute. lia.
Defined.

(** Names without a hyphen are the names of fewer than two segments. *)
Lemma short_name_iff (voice_name : str) :
  (length (split hyphen voice_name) < 2)%nat ↔ hyphen ∉ voice_name.
Proof.
  rewrite split_length_count.
  induction voice_name as [|c s IH]; simpl.
  - split; [intros _; apply not_elem_of_nil | lia].
  - rewrite not_elem_of_cons.
    destruct (N.eqb_spec c hyphen) as [->|Hc]; [split; [lia | tauto]|].
    rewrite IH. split; [by split | tauto].
Qed.

(** Text with a surrogate on its own is a valid request by every
    precondition of the specification, and no call is issued for it. *)
Lemma synthesize_speech_no_call :
  ¬ blank [55296]
  ∧ known_voice Sample.catalog (py "en-US-Wavenet-F")
  ∧ rate_in_range 1
  ∧ pitch_in_range 0
  ∧ synthesize_speech Sample.client [55296] (py "en-US-Wavenet-F") 1 0
      Sample.start
    = (None,
       {| calls := [];
          page := [st_error (py "API call failed: ")
                     (Some (EncodeError [55296]))];
          cache := None |}).
Proof.
  split; [|split; [|split; [|split]]].
  - intros H. apply (bool_decide_pack _) in H. by vm_compute in H.
  - exists (py "en-US"), [(py "en-US-Wavenet-F", py "en-US-Wavenet-F (Female)")],
      (py "en-US-Wavenet-F (Female)").
    split; [apply lookup_singleton_eq | apply list_elem_of_here].
  - split; by vm_compute.
  - split; by vm_compute.
  - reflexivity.
Qed.

(** C5, for the requests that can be built: when text and voice name can
    be encoded, [synthesize_speech] issues exactly one synthesis call, for
    MP3 and with the text, voice name, rate and pitch it was given, and
    returns the provider's audio bytes as they came, or [None] after
    reporting the provider's error; it calls no second time. *)
Theorem synthesize_speech_single_call (client : Client)
    (txt name : str) (rate semitones : Q) (w : World) :
  encodable txt = true →
  encodable name = true →
  let request := synthesis_request txt name rate semitones in
  let result := synthesize_speech client txt name rate semitones w in
  calls result.2 = calls w ++ [SynthesizeSpeech request]
  ∧ text (input request) = txt
  ∧ voice_name (voice request) = name
  ∧ audio_encoding (audio_config request) = MP3
  ∧ speaking_rate (audio_config request) = rate
  ∧ pitch (audio_config request) = semitones
  ∧ cache result.2 = cache w
  ∧ match synthesize_speech_reply client (calls w) request with
    | Returned response =>
        result.1 = Some (audio_content response) ∧ page result.2 = page w
    | Raised e =>
        result.1 = None
        ∧ page result.2 = page w ++ [st_error (py "API call failed: ") (Some e)]
    end.
Proof.
  intros Htxt Hname request result. subst request result.
  rewrite synthesize_speech_run, Htxt, Hname. simpl.
  destruct (synthesize_speech_reply _ _ _); simpl; auto 10.
Qed.

Lemma synthesize_speech_single_call_witness :
  let request := synthesis_request (py "Hello") (py "en-US-Wavenet-F") 1 0 in
  let result :=
    synthesize_speech Sample.client (py "Hello") (py "en-US-Wavenet-F") 1 0
      Sample.start in
  calls result.2 = calls Sample.start ++ [SynthesizeSpeech request]
  ∧ text (input request) = py "Hello"
  ∧ voice_name (voice request) = py "en-US-Wavenet-F"
  ∧ audio_encoding (audio_config request) = MP3
  ∧ speaking_rate (audio_config request) = 1%Q
  ∧ pitch (audio_config request) = 0%Q
  ∧ cache result.2 = cache Sample.start
  ∧ match synthesize_speech_reply Sample.client (calls Sample.start) request with
    | Returned response =>
        result.1 = Some (audio_content response)
        ∧ page result.2 = page Sample.start
    | Raised e =>
        result.1 = None
        ∧ page result.2
          = page Sample.start ++ [st_error (py "API call failed: ") (Some e)]
    end.
Proof.
  apply (synthesize_speech_single_call Sample.client (py "Hello")
           (py "en-US-Wavenet-F") 1 0 Sample.start); reflexivity.
Defined.

(** ** The checks made before a request *)

(** C3: when the text is empty or only whitespace, a press of the button
    shows the warning that stands for the validation error and issues no
    call to the provider. *)
Theorem generate_audio_blank_text (client : Client) (input_text : str)
    (available_voices : Catalog) (selected_voice_name : str)
    (speaking_rate pitch : Q) (w : World) :
  blank input_text →
  generate_audio client input_text available_voices selected_voice_name
    speaking_rate pitch w
  = (tt, {| calls := calls w;
            page := page w
                    ++ [st_warning (py "Please enter some text to generate audio.")];
            cache := cache w |}).
Proof.
  intros Hblank%strip_nil_iff. unfold generate_audio.
  by rewrite Hblank.
Qed.

Lemma generate_audio_blank_text_witness :
  calls (generate_audio Sample.client (py "   ") Sample.catalog
           (py "en-US-Wavenet-F") 1 0 Sample.start).2 = []
  ∧ page (generate_audio Sample.client (py "   ") Sample.catalog
            (py "en-US-Wavenet-F") 1 0 Sample.start).2
    = [st_warning (py "Please enter some text to generate audio.")].
Proof.
  rewrite (generate_audio_blank_text Sample.client (py "   ") Sample.catalog
             (py "en-US-Wavenet-F") 1 0 Sample.start).
  - split; reflexivity.
  - apply (bool_decide_unpack _). by vm_compute.
Defined.

(** [synthesize_speech] itself does not look at the text: the check is the
    button's. *)
Example synthesize_speech_empty_text :
  calls (synthesize_speech Sample.client [] (py "en-US-Wavenet-F") 1 0
           Sample.start).2
  = [SynthesizeSpeech (synthesis_request [] (py "en-US-Wavenet-F") 1 0)].
Proof. reflexivity. Qed.

(** C4, for the preconditions the code checks: a press of the button with
    blank text, or while the catalogue is empty, so that no voice name is
    known, is reported at once, by the warning for the text and else by the
    error for the catalogue, and issues no call, whatever the voice name,
    the rate and the pitch are. *)
Theorem generate_audio_local_checks (client : Client) (input_text : str)
    (available_voices : Catalog) (selected_voice_name : str)
    (speaking_rate pitch : Q) (w : World) :
  blank input_text ∨ available_voices = ∅ →
  generate_audio client input_text available_voices selected_voice_name
    speaking_rate pitch w
  = (tt,
     {| calls := calls w;
        page := page w
                ++ [if decide (blank input_text) then
                      st_warning (py "Please enter some text to generate audio.")
                    else
                      st_error
                        (py "Cannot generate audio because voice list is unavailable.")
                        None];
        cache := cache w |}).
Proof.
  intros Hchecks.
  destruct (decide (blank input_text)) as [Hblank|Hblank].
  { apply strip_nil_iff in Hblank. unfold generate_audio. by rewrite Hblank. }
  destruct Hchecks as [?| ->]; [done|].
  unfold generate_audio.
  destruct (truthy (strip input_text)) eqn:Htext.
  2: { apply truthy_false, strip_nil_iff in Htext. done. }
  simpl. by rewrite bool_decide_eq_true_2.
Qed.

Lemma generate_audio_local_checks_witness :
  generate_audio Sample.client (py "Hello") ∅ (py "zz-ZZ-Nobody") 100 (- (50))
    Sample.start
  = (tt,
     {| calls := [];
        page := [st_error
                   (py "Cannot generate audio because voice list is unavailable.")
                   None];
        cache := None |}).
Proof.
  apply (generate_audio_local_checks Sample.client (py "Hello") ∅
           (py "zz-ZZ-Nobody") 100 (- (50)) Sample.start).
  by right.
Defined.

(** When the checks pass and the provider returns audio, the player and
    the download button get the provider's bytes as they came. *)
Lemma generate_audio_plays_reply (client : Client) (input_text : str)
    (available_voices : Catalog) (selected_voice_name : str)
    (speaking_rate pitch : Q) (w : World) (b : Byte.byte) (data : bytes) :
  ¬ blank input_text →
  available_voices ≠ ∅ →
  encodable input_text = true →
  encodable selected_voice_name = true →
  synthesize_speech_reply client (calls w)
    (synthesis_request input_text selected_voice_name speaking_rate pitch)
  = Returned {| audio_content := b :: data |} →
  page (generate_audio client input_text available_voices
          selected_voice_name speaking_rate pitch w).2
  = page w
    ++ [st_success (py "Audio generated successfully!");
        st_audio (b :: data) (py "audio/mp3");
        st_download_button (py "Download MP3") (b :: data)
          (py "generated_speech.mp3") (py "audio/mpeg")].
Proof.
  intros Hblank Hvoices Htxt Hname Hreply. unfold generate_audio.
  destruct (truthy (strip input_text)) eqn:Htext.
  2: { apply truthy_false, strip_nil_iff in Htext. done. }
  simpl. rewrite bool_decide_eq_false_2 by done.
  unfold bind. rewrite synthesize_speech_run, Htxt, Hname. simpl.
  rewrite Hreply. simpl. by rewrite <- !app_assoc.
Qed.

(** The request of an unknown voice, with rate and pitch out of range,
    reaches the provider and no error is shown. *)
Lemma generate_audio_unchecked_request :
  ¬ known_voice Sample.catalog (py "zz-ZZ-Nobody")
  ∧ ¬ rate_in_range 100
  ∧ ¬ pitch_in_range (- (50))
  ∧ generate_audio Sample.client (py "Hello") Sample.catalog
      (py "zz-ZZ-Nobody") 100 (- (50)) Sample.start
    = (tt,
       {| calls := [SynthesizeSpeech
                      (synthesis_request (py "Hello") (py "zz-ZZ-Nobody")
                         100 (- (50)))];
          page := [st_success (py "Audio generated successfully!");
                   st_audio Sample.mp3 (py "audio/mp3");
                   st_download_button (py "Download MP3") Sample.mp3
                     (py "generated_speech.mp3") (py "audio/mpeg")];
          cache := None |}).
Proof.
  split; [|split; [|split]].
  - intros (language & bucket & label & Hbucket & Hin).
    unfold Sample.catalog in Hbucket.
    apply lookup_singleton_Some in Hbucket as [_ <-].
    apply list_elem_of_singleton in Hin. discriminate.
  - intros [_ H]. by vm_compute in H.
  - intros [H _]. by vm_compute in H.
  - reflexivity.
Qed.

(** ** The catalogue *)

Lemma gender_word_capitalize (g : SsmlVoiceGender) :
  capitalize (enum_name g) = gender_word g.
Proof. by destruct g. Qed.

(** Creating the bucket when it is absent and appending to it is one
    insertion. *)
Lemma alter_bucket (fv : Catalog) (language : str) (p : str * str) :
  alter (fun l => l ++ [p]) language
    match fv !! language with
    | None => <[language := []]> fv
    | Some _ => fv
    end
  = <[language := default [] (fv !! language) ++ [p]]> fv.
Proof.
  apply map_eq. intros k.
  destruct (fv !! language) as [b|] eqn:Hb; simpl.
  - rewrite lookup_alter, lookup_insert.
    case_decide; subst; [by rewrite Hb | done].
  - rewrite alter_insert_eq. done.
Qed.

Lemma format_voice_entry (fv : Catalog) (v : Voice) (language : str)
    (p : str * str) :
  entry_of v = Some (language, p) →
  format_voice fv v
  = Returned (<[language := default [] (fv !! language) ++ [p]]> fv).
Proof.
  unfold entry_of, first_language, format_voice.
  destruct (language_codes v) as [|l ls]; simpl; [done|].
  destruct (SsmlVoiceGender_of (ssml_gender v)) as [g|]; [|done].
  intros [= <- <-]. by rewrite alter_bucket, gender_word_capitalize.
Qed.

Lemma format_voice_Returned (fv fv' : Catalog) (v : Voice) :
  format_voice fv v = Returned fv' → is_Some (entry_of v).
Proof.
  unfold entry_of, first_language, format_voice.
  destruct (language_codes v) as [|l ls]; simpl; [done|].
  by destruct (SsmlVoiceGender_of (ssml_gender v)).
Qed.

Lemma well_formed_entry (v : Voice) : well_formed v ↔ is_Some (entry_of v).
Proof.
  unfold well_formed, entry_of, first_language.
  destruct (language_codes v) as [|l ls]; simpl.
  - split; [by intros [? _] | by intros [? ?]].
  - destruct (SsmlVoiceGender_of (ssml_gender v)); split.
    + by eexists.
    + by intros _; split.
    + by intros [_ [? ?]].
    + by intros [? ?].
Qed.

Lemma bucket_of_cons (language l : str) (p : str * str)
    (es : list (str * (str * str))) :
  bucket_of language ((l, p) :: es)
  = if decide (l = language) then p :: bucket_of language es
    else bucket_of language es.
Proof.
  unfold bucket_of. rewrite filter_cons. simpl.
  by case_decide.
Qed.

(** The loop, when it ends, has filed the pair of every voice under the
    language of the voice, after what the bucket held. *)
Lemma for_voices_Returned (voice_list : list Voice) :
  ∀ fv m,
    for_voices fv voice_list = Returned m →
    ∃ es,
      Forall2 (fun v e => entry_of v = Some e) voice_list es
      ∧ ∀ language, m !! language = extend (fv !! language) (bucket_of language es).
Proof.
  induction voice_list as [|v rest IH]; intros fv m; simpl.
  - intros [= <-]. exists []. split; [constructor | done].
  - destruct (format_voice fv v) as [fv1|e] eqn:Hv; [|done].
    intros Hrest.
    destruct (format_voice_Returned _ _ _ Hv) as [[l p] Hentry].
    rewrite (format_voice_entry fv v l p Hentry) in Hv.
    injection Hv as <-.
    destruct (IH _ _ Hrest) as (es & Hes & Hm).
    exists ((l, p) :: es). split; [by constructor|].
    intros language. rewrite Hm, bucket_of_cons, lookup_insert.
    repeat case_decide; subst; try done.
    unfold extend. destruct (bucket_of language es); simpl; [done|].
    by rewrite <- app_assoc.
Qed.

(** The loop ends on well-formed voices. *)
Lemma for_voices_well_formed (voice_list : list Voice) :
  Forall well_formed voice_list →
  ∀ fv, ∃ m, for_voices fv voice_list = Returned m.
Proof.
  induction 1 as [|v rest Hv _ IH]; intros fv; simpl; [by eexists|].
  apply well_formed_entry in Hv as [[l p] Hentry].
  rewrite (format_voice_entry fv v l p Hentry). apply IH.
Qed.

(** The pairs filed under a language are those of the voices of that
    primary language, in the order of the voices. *)
Lemma bucket_of_voices (language : str) (voice_list : list Voice)
    (es : list (str * (str * str))) :
  Forall2 (fun v e => entry_of v = Some e) voice_list es →
  Forall2 (fun v p => entry_of v = Some (language, p))
    (filter (fun v => first_language v = Some language) voice_list)
    (bucket_of language es).
Proof.
  induction 1 as [|v [l p] rest es Hentry _ IH]; [constructor|].
  rewrite bucket_of_cons, filter_cons.
  assert (first_language v = Some l) as Hl.
  { unfold entry_of in Hentry. destruct (first_language v); [|done].
    destruct (SsmlVoiceGender_of _); [|done]. by injection Hentry as -> _. }
  rewrite Hl. repeat case_decide; simplify_eq; try done.
  by constructor.
Qed.

(** A first call of [get_voices], in full. *)
Lemma get_voices_miss (client : Client) (w : World) :
  cache w = None →
  get_voices client w
  = match list_voices_reply client (calls w) with
    | Returned voice_list =>
        match for_voices ∅ voice_list with
        | Returned m =>
            (m, {| calls := calls w ++ [ListVoices]; page := page w;
                   cache := Some (m, []) |})
        | Raised e =>
            let el := st_error (py "Could not fetch voices from Google API: ")
                        (Some e) in
            (∅, {| calls := calls w ++ [ListVoices]; page := page w ++ [el];
                   cache := Some (∅, [el]) |})
        end
    | Raised e =>
        let el := st_error (py "Could not fetch voices from Google API: ")
                    (Some e) in
        (∅, {| calls := calls w ++ [ListVoices]; page := page w ++ [el];
               cache := Some (∅, [el]) |})
    end.
Proof.
  intros Hcache.
  unfold get_voices, cache_data, get_voices_body, get_voices_try, bind,
    call_list_voices, render, ret.
  rewrite Hcache. simpl.
  destruct (list_voices_reply client (calls w)) as [voice_list|e]; simpl.
  - destruct (for_voices ∅ voice_list); simpl; by rewrite ?app_nil_r.
  - done.
Qed.

(** A later call. *)
Lemma get_voices_hit (client : Client) (w : World) (m : Catalog)
    (rendered : list Element) :
  cache w = Some (m, rendered) →
  get_voices client w
  = (m, {| calls := calls w; page := page w ++ rendered; cache := cache w |}).
Proof. intros Hcache. unfold get_voices, cache_data. by rewrite Hcache. Qed.

(** What a first call returns is empty or the result of the loop. *)
Lemma get_voices_miss_catalog (client : Client) (w w' : World) (m : Catalog) :
  cache w = None →
  get_voices client w = (m, w') →
  m = ∅
  ∨ ∃ voice_list,
      list_voices_reply client (calls w) = Returned voice_list
      ∧ for_voices ∅ voice_list = Returned m.
Proof.
  intros Hcache. rewrite get_voices_miss by done.
  destruct (list_voices_reply client (calls w)) as [voice_list|e].
  - destruct (for_voices ∅ voice_list) as [m'|e] eqn:Hloop.
    + intros [= <- _]. right. by exists voice_list.
    + intros [= <- _]. by left.
  - intros [= <- _]. by left.
Qed.

(** C1, for the responses the loop can format: when every voice has a
    language code and a gender that is an enumerant, a first call of
    [get_voices] issues one list call, shows nothing and returns a
    catalogue in which the bucket of a language holds, in the order of the
    response, the pair of each voice whose first language code it is, and
    nothing else; a language without such a voice has no bucket. *)
Theorem get_voices_groups_by_first_language (client : Client) (w : World)
    (voice_list : list Voice) :
  cache w = None →
  list_voices_reply client (calls w) = Returned voice_list →
  Forall well_formed voice_list →
  ∃ m w',
    get_voices client w = (m, w')
    ∧ calls w' = calls w ++ [ListVoices]
    ∧ page w' = page w
    ∧ ∀ language,
        let voices :=
          filter (fun v => first_language v = Some language) voice_list in
        match m !! language with
        | Some bucket =>
            voices ≠ []
            ∧ Forall2 (fun v p => entry_of v = Some (language, p)) voices bucket
        | None => voices = []
        end.
Proof.
  intros Hcache Hreply Hwf.
  destruct (for_voices_well_formed voice_list Hwf ∅) as [m Hloop].
  rewrite get_voices_miss, Hreply, Hloop by done.
  eexists _, _. split; [done|]. simpl. split; [done|]. split; [done|].
  intros language.
  destruct (for_voices_Returned _ _ _ Hloop) as (es & Hes & Hm).
  rewrite Hm, lookup_empty.
  pose proof (bucket_of_voices language _ _ Hes) as Hbucket.
  unfold extend. destruct (bucket_of language es) as [|p ps] eqn:Hb.
  - by inversion Hbucket.
  - simpl. split; [|done]. intros Hnil. rewrite Hnil in Hbucket.
    inversion Hbucket.
Qed.

Lemma get_voices_groups_by_first_language_witness :
  ∃ m w',
    get_voices Sample.client Sample.start = (m, w')
    ∧ calls w' = [ListVoices]
    ∧ page w' = []
    ∧ ∀ language,
        let voices :=
          filter (fun v => first_language v = Some language)
            [Sample.wavenet_f; Sample.standard_a; Sample.wavenet_a] in
        match m !! language with
        | Some bucket =>
            voices ≠ []
            ∧ Forall2 (fun v p => entry_of v = Some (language, p)) voices bucket
        | None => voices = []
        end.
Proof.
  apply (get_voices_groups_by_first_language Sample.client Sample.start
           [Sample.wavenet_f; Sample.standard_a; Sample.wavenet_a]).
  - reflexivity.
  - reflexivity.
  - repeat (apply List.Forall_cons; [split; [discriminate | by eexists] |]).
    apply List.Forall_nil.
Defined.

(** One voice without a language code empties the catalogue: the voice
    listed before it, whose first language code is "en-US", is in no
    bucket. *)
Lemma get_voices_drops_all :
  list_voices_reply Sample.odd (calls Sample.start)
    = Returned [Sample.wavenet_f; Sample.no_language]
  ∧ first_language Sample.wavenet_f = Some (py "en-US")
  ∧ (get_voices Sample.odd Sample.start).1 !! py "en-US" = None
  ∧ (get_voices Sample.odd Sample.start).1 = ∅
  ∧ page (get_voices Sample.odd Sample.start).2
    = [st_error (py "Could not fetch voices from Google API: ")
         (Some IndexError)].
Proof. repeat split; reflexivity. Qed.

(** C6: when the list call fails, a first call of [get_voices] returns the
    empty catalogue and shows an error that carries the provider's
    exception; the exception goes no further. *)
Theorem get_voices_provider_failure (client : Client) (w : World)
    (e : Exception) :
  cache w = None →
  list_voices_reply client (calls w) = Raised e →
  (get_voices client w).1 = ∅
  ∧ calls (get_voices client w).2 = calls w ++ [ListVoices]
  ∧ page (get_voices client w).2
    = page w
      ++ [st_error (py "Could not fetch voices from Google API: ") (Some e)].
Proof.
  intros Hcache Hreply. by rewrite get_voices_miss, Hreply.
Qed.

Lemma get_voices_provider_failure_witness :
  (get_voices Sample.down Sample.start).1 = ∅
  ∧ calls (get_voices Sample.down Sample.start).2 = [ListVoices]
  ∧ page (get_voices Sample.down Sample.start).2
    = [st_error (py "Could not fetch voices from Google API: ")
         (Some (ApiError (py "503 unavailable")))].
Proof.
  apply (get_voices_provider_failure Sample.down Sample.start
           (ApiError (py "503 unavailable"))); reflexivity.
Defined.

(** Whatever is raised inside the [try] block is handled the same way. *)
Lemma get_voices_body_catches (client : Client) (w w1 : World) (e : Exception) :
  get_voices_try client w = (Raised e, w1) →
  get_voices_body client w
  = (∅, {| calls := calls w1;
           page := page w1
                   ++ [st_error (py "Could not fetch voices from Google API: ")
                         (Some e)];
           cache := cache w1 |}).
Proof. intros Htry. unfold get_voices_body, bind. by rewrite Htry. Qed.

(** ** Display names *)

(** The display name tells the name. *)
Lemma display_name_of_inj (name1 name2 : str) (g1 g2 : SsmlVoiceGender) :
  display_name_of name1 (gender_word g1) = display_name_of name2 (gender_word g2) →
  name1 = name2.
Proof.
  unfold display_name_of. intros H.
  assert (g1 = g2) as ->.
  { apply (f_equal (fun l => take 5 (reverse l))) in H.
    rewrite !reverse_app in H.
    destruct g1, g2; try done; vm_compute in H; discriminate. }
  by apply app_inv_tail in H.
Qed.

(** Every pair of a catalogue that a first call returns is the pair of a
    voice. *)
Lemma get_voices_pairs (client : Client) (w w' : World) (m : Catalog)
    (language : str) (bucket : list (str * str)) (p : str * str) :
  cache w = None →
  get_voices client w = (m, w') →
  m !! language = Some bucket →
  p ∈ bucket →
  ∃ v, entry_of v = Some (language, p).
Proof.
  intros Hcache Hget Hbucket Hin.
  destruct (get_voices_miss_catalog _ _ _ _ Hcache Hget)
    as [->|(voice_list & _ & Hloop)]; [by rewrite lookup_empty in Hbucket|].
  destruct (for_voices_Returned _ _ _ Hloop) as (es & Hes & Hm).
  rewrite Hm, lookup_empty in Hbucket.
  assert (bucket = bucket_of language es) as ->.
  { unfold extend in Hbucket. destruct (bucket_of language es); [done|].
    by injection Hbucket. }
  pose proof (bucket_of_voices language _ _ Hes) as Hall.
  apply list_elem_of_lookup in Hin as [i Hi].
  destruct (Forall2_lookup_r _ _ _ _ _ Hall Hi) as (v & _ & Hv).
  by exists v.
Qed.

Lemma entry_of_pair (v : Voice) (language : str) (p : str * str) :
  entry_of v = Some (language, p) →
  ∃ g, SsmlVoiceGender_of (ssml_gender v) = Some g
       ∧ p = (name v, display_name_of (name v) (gender_word g)).
Proof.
  unfold entry_of. destruct (first_language v); [|done].
  destruct (SsmlVoiceGender_of _) as [g|]; [|done].
  intros [= _ <-]. by exists g.
Qed.

(** The map of line 118 holds exactly the pairs of the bucket, turned
    around, when no display name stands for two names. *)
Lemma voice_display_map_lookup (voice_options : list (str * str)) :
  (∀ name1 name2 label,
      (name1, label) ∈ voice_options → (name2, label) ∈ voice_options →
      name1 = name2) →
  ∀ name label,
    voice_display_map voice_options !! label = Some name
    ↔ (name, label) ∈ voice_options.
Proof.
  unfold voice_display_map.
  induction voice_options as [|[n l] options IH] using rev_ind; intros Hfun name label.
  - simpl. rewrite lookup_empty. split; [done | by intros ?%not_elem_of_nil].
  - rewrite foldl_snoc, lookup_insert, elem_of_app, list_elem_of_singleton.
    case_decide as Hl.
    + subst l. split.
      * intros [= <-]. by right.
      * intros Hin. f_equal. apply (Hfun n name label).
        -- apply elem_of_app. right. by apply list_elem_of_singleton.
        -- apply elem_of_app. destruct Hin as [?|Heq]; [by left|].
           right. apply list_elem_of_singleton. congruence.
    + rewrite IH.
      * split; [by left | intros [?|Heq]; [done | congruence]].
      * intros n1 n2 l' H1 H2. apply (Hfun n1 n2 l'); apply elem_of_app; by left.
Qed.

(** C7: in every bucket of the catalogue that [get_voices] returns, no
    display name stands for two names, looking a display name up in the
    map of line 118 gives the name it was paired with, and the map holds
    nothing else. *)
Theorem voice_display_map_inverts (client : Client) (w w' : World)
    (m : Catalog) (language : str) (bucket : list (str * str)) :
  cache w = None →
  get_voices client w = (m, w') →
  m !! language = Some bucket →
  (∀ name label,
      (name, label) ∈ bucket → voice_display_map bucket !! label = Some name)
  ∧ (∀ name1 name2 label,
        (name1, label) ∈ bucket → (name2, label) ∈ bucket → name1 = name2)
  ∧ (∀ name label,
        voice_display_map bucket !! label = Some name → (name, label) ∈ bucket).
Proof.
  intros Hcache Hget Hbucket.
  assert (∀ name1 name2 label,
            (name1, label) ∈ bucket → (name2, label) ∈ bucket → name1 = name2)
    as Hfun.
  { intros name1 name2 label H1 H2.
    destruct (get_voices_pairs _ _ _ _ _ _ _ Hcache Hget Hbucket H1) as [v1 Hv1].
    destruct (get_voices_pairs _ _ _ _ _ _ _ Hcache Hget Hbucket H2) as [v2 Hv2].
    apply entry_of_pair in Hv1 as (g1 & _ & [= -> ->]).
    apply entry_of_pair in Hv2 as (g2 & _ & [= -> Hlabel]).
    by apply display_name_of_inj in Hlabel. }
  split; [|split].
  - intros name label. by apply voice_display_map_lookup.
  - done.
  - intros name label. by apply voice_display_map_lookup.
Qed.

Lemma voice_display_map_inverts_witness :
  let bucket :=
    [(py "en-US-Wavenet-F", py "en-US-Wavenet-F (Female)");
     (py "en-US-Wavenet-A", py "en-US-Wavenet-A (Neutral)")] in
  (∀ name label,
      (name, label) ∈ bucket → voice_display_map bucket !! label = Some name)
  ∧ (∀ name1 name2 label,
        (name1, label) ∈ bucket → (name2, label) ∈ bucket → name1 = name2)
  ∧ (∀ name label,
        voice_display_map bucket !! label = Some name → (name, label) ∈ bucket).
Proof.
  apply (voice_display_map_inverts Sample.client Sample.start
           (get_voices Sample.client Sample.start).2
           (get_voices Sample.client Sample.start).1 (py "en-US")).
  - reflexivity.
  - reflexivity.
  - by vm_compute.
Defined.

(** C9: in the catalogue a first call of [get_voices] returns, the pair of
    a voice is its name with the display name "name (Gender)", where Gender
    is the name of the voice's gender enumerant, capitalized: Male, Female,
    Neutral, and Ssml_voice_gender_unspecified for the unspecified one. *)
Theorem get_voices_display_name (client : Client) (w w' : World)
    (voice_list : list Voice) (m : Catalog) (language : str)
    (bucket : list (str * str)) :
  cache w = None →
  list_voices_reply client (calls w) = Returned voice_list →
  get_voices client w = (m, w') →
  m !! language = Some bucket →
  Forall2
    (fun v p =>
       ∃ g, SsmlVoiceGender_of (ssml_gender v) = Some g
            ∧ p = (name v, name v ++ py " (" ++ gender_word g ++ py ")"))
    (filter (fun v => first_language v = Some language) voice_list)
    bucket
  ∧ ∀ g, gender_word g = capitalize (enum_name g).
Proof.
  intros Hcache Hreply Hget Hbucket.
  split; [|intros g; by rewrite gender_word_capitalize].
  rewrite get_voices_miss, Hreply in Hget by done.
  destruct (for_voices ∅ voice_list) as [m'|e] eqn:Hloop.
  2: { injection Hget as <- _. by rewrite lookup_empty in Hbucket. }
  injection Hget as <- _.
  destruct (for_voices_Returned _ _ _ Hloop) as (es & Hes & Hm).
  rewrite Hm, lookup_empty in Hbucket.
  assert (bucket = bucket_of language es) as ->.
  { unfold extend in Hbucket. destruct (bucket_of language es); [done|].
    by injection Hbucket. }
  eapply Forall2_impl; [by apply bucket_of_voices|].
  intros v p Hentry. by apply entry_of_pair in Hentry.
Qed.

Lemma get_voices_display_name_witness :
  Forall2
    (fun v p =>
       ∃ g, SsmlVoiceGender_of (ssml_gender v) = Some g
            ∧ p = (name v, name v ++ py " (" ++ gender_word g ++ py ")"))
    [Sample.wavenet_f; Sample.wavenet_a]
    [(py "en-US-Wavenet-F", py "en-US-Wavenet-F (Female)");
     (py "en-US-Wavenet-A", py "en-US-Wavenet-A (Neutral)")]
  ∧ ∀ g, gender_word g = capitalize (enum_name g).
Proof.
  apply (get_voices_display_name Sample.client Sample.start
           (get_voices Sample.client Sample.start).2
           [Sample.wavenet_f; Sample.standard_a; Sample.wavenet_a]
           (get_voices Sample.client Sample.start).1 (py "en-US")).
  - reflexivity.
  - reflexivity.
  - reflexivity.
  - by vm_compute.
Defined.

(** ** Memoization *)

Lemma synthesize_speech_cache (client : Client) (text voice_name : str)
    (speaking_rate pitch : Q) (w : World) :
  cache (synthesize_speech client text voice_name speaking_rate pitch w).2
  = cache w.
Proof.
  rewrite synthesize_speech_run.
  destruct (encodable text && encodable voice_name); [|done].
  simpl. by destruct (synthesize_speech_reply _ _ _).
Qed.

Lemma generate_audio_cache (client : Client) (input_text : str)
    (available_voices : Catalog) (selected_voice_name : str)
    (speaking_rate pitch : Q) (w : World) :
  cache (generate_audio client input_text available_voices
           selected_voice_name speaking_rate pitch w).2
  = cache w.
Proof.
  unfold generate_audio.
  destruct (negb _); [done|]. destruct (bool_decide _); [done|].
  unfold bind.
  pose proof (synthesize_speech_cache client input_text selected_voice_name
                speaking_rate pitch w) as Hcache.
  destruct (synthesize_speech _ _ _ _ _ w) as [[[|b data]|] w1]; by simpl in *.
Qed.

(** A call of [get_voices] leaves its result in the cache. *)
Lemma get_voices_fills_cache (client : Client) (w w1 : World) (m : Catalog) :
  get_voices client w = (m, w1) → ∃ rendered, cache w1 = Some (m, rendered).
Proof.
  destruct (cache w) as [[m0 rendered]|] eqn:Hcache.
  - rewrite (get_voices_hit _ _ _ _ Hcache). intros [= <- <-]. simpl. eauto.
  - rewrite get_voices_miss by done.
    destruct (list_voices_reply client (calls w)) as [voice_list|e];
      [destruct (for_voices ∅ voice_list)|];
      intros [= <- <-]; simpl; eauto.
Qed.

(** Nothing the process does changes a filled cache. *)
Lemma step_keeps_cache (client : Client) (w w' : World)
    (entry : Catalog * list Element) :
  step client w w' → cache w = Some entry → cache w' = Some entry.
Proof.
  intros Hstep Hcache. destruct entry as [m rendered].
  destruct Hstep.
  - by rewrite (get_voices_hit _ _ _ _ Hcache).
  - by rewrite synthesize_speech_cache.
  - by rewrite generate_audio_cache.
Qed.

Lemma steps_keep_cache (client : Client) (w w' : World)
    (entry : Catalog * list Element) :
  rtc (step client) w w' → cache w = Some entry → cache w' = Some entry.
Proof.
  induction 1 as [|w1 w2 w3 Hstep _ IH]; [done|].
  intros Hcache. apply IH. by eapply step_keeps_cache.
Qed.

(** C8: once [get_voices] has returned a catalogue, every call of it in
    the rest of the process, whatever the process has done in between,
    returns the same catalogue and issues no call to the provider; the
    cache entry stays as it is. *)
Theorem get_voices_memoized (client : Client) (w w1 w2 : World) (m : Catalog) :
  get_voices client w = (m, w1) →
  rtc (step client) w1 w2 →
  (get_voices client w2).1 = m
  ∧ calls (get_voices client w2).2 = calls w2
  ∧ cache (get_voices client w2).2 = cache w1.
Proof.
  intros Hget Hsteps.
  destruct (get_voices_fills_cache _ _ _ _ Hget) as [rendered Hcache].
  pose proof (steps_keep_cache _ _ _ _ Hsteps Hcache) as Hcache2.
  rewrite (get_voices_hit _ _ _ _ Hcache2). simpl. by rewrite Hcache.
Qed.

Lemma get_voices_memoized_witness :
  let w1 := (get_voices Sample.client Sample.start).2 in
  let w2 := (generate_audio Sample.client (py "Hello")
               (get_voices Sample.client Sample.start).1
               (py "en-US-Wavenet-F") 1 0 w1).2 in
  (get_voices Sample.client w2).1 = (get_voices Sample.client Sample.start).1
  ∧ calls (get_voices Sample.client w2).2 = calls w2
  ∧ cache (get_voices Sample.client w2).2 = cache w1.
Proof.
  intros w1 w2.
  apply (get_voices_memoized Sample.client Sample.start w1 w2
           (get_voices Sample.client Sample.start).1).
  - reflexivity.
  - apply rtc_once. apply step_generate_audio.
Defined.

(** * Further properties of the code *)

(** ** Where the language code ends *)

Lemma count_app (c : char) (a b : str) :
  count c (a ++ b) = (count c a + count c b)%nat.
Proof.
  induction a as [|d a IH]; [done|].
  simpl. destruct (N.eqb d c); simpl; by rewrite IH.
Qed.

Lemma count_free (c : char) (s : str) : c ∉ s → count c s = 0%nat.
Proof.
  induction s as [|d s IH]; [done|].
  intros [Hd Hs]%not_elem_of_cons. simpl.
  destruct (N.eqb_spec d c) as [->|_]; [done | by apply IH].
Qed.

(** The language code never holds a second hyphen. *)
Lemma language_code_count (voice_name : str) :
  (count hyphen (language_code voice_name) ≤ 1)%nat.
Proof.
  pose proof (split_sep_free hyphen voice_name) as Hfree.
  unfold language_code.
  destruct (split hyphen voice_name) as [|a [|b segs]]; simpl; [lia| |].
  - inversion Hfree; subst. rewrite count_free by done. lia.
  - inversion Hfree as [|? ? Ha Hfree']; subst.
    inversion Hfree' as [|? ? Hb _]; subst.
    change (join [hyphen] (a :: take 1 (b :: segs))) with (a ++ hyphen :: b).
    rewrite count_app. simpl. rewrite !count_free by done. lia.
Qed.

(** X1: the language code is the voice name cut just before its second
    hyphen, and the whole name when it has at most one hyphen. *)
Theorem language_code_cut (voice_name : str) :
  (count hyphen voice_name ≤ 1 ∧ language_code voice_name = voice_name)%nat
  ∨ (count hyphen (language_code voice_name) = 1%nat
     ∧ ∃ rest, voice_name = language_code voice_name ++ hyphen :: rest).
Proof.
  pose proof (join_split hyphen voice_name) as Hjoin.
  pose proof (split_sep_free hyphen voice_name) as Hfree.
  pose proof (split_length_count hyphen voice_name) as Hlen.
  pose proof (split_not_nil hyphen voice_name) as Hne.
  unfold language_code.
  destruct (split hyphen voice_name) as [|a [|b [|c segs]]]; [done| | |].
  - left. simpl in *. split; [lia | done].
  - left. simpl in Hlen. split; [lia | done].
  - right.
    apply Forall_cons in Hfree as [Ha Hfree].
    apply Forall_cons in Hfree as [Hb _].
    change (take 2 (a :: b :: c :: segs)) with [a; b].
    change (join [hyphen] [a; b]) with (a ++ hyphen :: b).
    split.
    + rewrite count_app. simpl.
      rewrite !count_free by done. lia.
    + exists (join [hyphen] (c :: segs)).
      rewrite <- Hjoin at 1.
      change (join [hyphen] (a :: b :: c :: segs))
        with (a ++ hyphen :: (b ++ hyphen :: join [hyphen] (c :: segs))).
      by rewrite <- app_assoc.
Qed.

(** X2: deriving the language code from a language code changes nothing. *)
Theorem language_code_idemp (voice_name : str) :
  language_code (language_code voice_name) = language_code voice_name.
Proof.
  apply language_code_short. rewrite split_length_count.
  pose proof (language_code_count voice_name). lia.
Qed.

(** ** What the catalogue holds *)

(** X3: no bucket of the catalogue that a first call of [get_voices]
    returns is empty. *)
Theorem get_voices_bucket_not_empty (client : Client) (w w' : World)
    (m : Catalog) (language : str) (bucket : list (str * str)) :
  cache w = None →
  get_voices client w = (m, w') →
  m !! language = Some bucket →
  bucket ≠ [].
Proof.
  intros Hcache Hget Hbucket.
  destruct (get_voices_miss_catalog _ _ _ _ Hcache Hget)
    as [->|(voice_list & _ & Hloop)]; [by rewrite lookup_empty in Hbucket|].
  destruct (for_voices_Returned _ _ _ Hloop) as (es & _ & Hm).
  rewrite Hm, lookup_empty in Hbucket. unfold extend in Hbucket.
  destruct (bucket_of language es); [done|].
  by injection Hbucket as <-.
Qed.

Lemma get_voices_bucket_not_empty_witness :
  [(py "fr-FR-Standard-A", py "fr-FR-Standard-A (Male)")] ≠ [].
Proof.
  apply (get_voices_bucket_not_empty Sample.client Sample.start
           (get_voices Sample.client Sample.start).2
           (get_voices Sample.client Sample.start).1 (py "fr-FR")).
  - reflexivity.
  - reflexivity.
  - by vm_compute.
Defined.

(** Filing a pair adds one to the number of pairs. *)
Lemma entries_insert (fv : Catalog) (language : str) (p : str * str) :
  entries (<[language := default [] (fv !! language) ++ [p]]> fv)
  = S (entries fv).
Proof.
  unfold entries. destruct (fv !! language) as [b|] eqn:Hb; simpl.
  - rewrite <- insert_delete_eq.
    rewrite map_to_list_insert by apply lookup_delete_eq.
    rewrite <- (map_to_list_delete fv language b) by done.
    simpl. rewrite length_app. simpl. lia.
  - by rewrite map_to_list_insert.
Qed.

Lemma for_voices_entries (voice_list : list Voice) :
  ∀ fv m,
    for_voices fv voice_list = Returned m →
    entries m = (entries fv + length voice_list)%nat.
Proof.
  induction voice_list as [|v rest IH]; intros fv m; simpl.
  - intros [= <-]. lia.
  - destruct (format_voice fv v) as [fv1|e] eqn:Hv; [|done].
    intros Hrest.
    destruct (format_voice_Returned _ _ _ Hv) as [[l p] Hentry].
    rewrite (format_voice_entry fv v l p Hentry) in Hv.
    injection Hv as <-.
    rewrite (IH _ _ Hrest), entries_insert. lia.
Qed.

(** X4: when every voice of the response can be formatted, the catalogue of
    a first call holds as many pairs as the response has voices: a voice
    listed twice is filed twice. *)
Theorem get_voices_entries (client : Client) (w : World)
    (voice_list : list Voice) :
  cache w = None →
  list_voices_reply client (calls w) = Returned voice_list →
  Forall well_formed voice_list →
  entries (get_voices client w).1 = length voice_list.
Proof.
  intros Hcache Hreply Hwf.
  destruct (for_voices_well_formed voice_list Hwf ∅) as [m Hloop].
  rewrite get_voices_miss, Hreply, Hloop by done. simpl.
  rewrite (for_voices_entries _ _ _ Hloop).
  unfold entries at 1. by rewrite map_to_list_empty.
Qed.

Lemma get_voices_entries_witness :
  entries (get_voices Sample.client Sample.start).1 = 3%nat.
Proof.
  apply (get_voices_entries Sample.client Sample.start
           [Sample.wavenet_f; Sample.standard_a; Sample.wavenet_a]).
  - reflexivity.
  - reflexivity.
  - repeat (apply List.Forall_cons; [split; [discriminate | by eexists] |]).
    apply List.Forall_nil.
Defined.

Lemma format_voice_ill_formed (fv : Catalog) (v : Voice) :
  ¬ well_formed v → format_voice fv v = Raised (format_error v).
Proof.
  unfold well_formed, format_voice, format_error.
  destruct (language_codes v) as [|l ls]; [done|].
  destruct (SsmlVoiceGender_of (ssml_gender v)) as [g|]; [|done].
  intros []. split; [done | by eexists].
Qed.

Lemma for_voices_ill_formed (good : list Voice) (bad : Voice)
    (rest : list Voice) :
  Forall well_formed good →
  ¬ well_formed bad →
  ∀ fv, for_voices fv (good ++ bad :: rest) = Raised (format_error bad).
Proof.
  intros Hgood Hbad.
  induction Hgood as [|v good Hv _ IH]; intros fv; simpl.
  - by rewrite format_voice_ill_formed.
  - apply well_formed_entry in Hv as [[l p] Hentry].
    rewrite (format_voice_entry fv v l p Hentry). apply IH.
Qed.

(** X5: one voice that cannot be formatted empties the catalogue.  When the
    response holds a voice without language code, or with a gender that is
    no enumerant, a first call of [get_voices] returns the empty catalogue
    and shows the error of the first such voice: [IndexError] when it has
    no language code, [ValueError] otherwise. *)
Theorem get_voices_ill_formed (client : Client) (w : World)
    (good : list Voice) (bad : Voice) (rest : list Voice) :
  cache w = None →
  list_voices_reply client (calls w) = Returned (good ++ bad :: rest) →
  Forall well_formed good →
  ¬ well_formed bad →
  (get_voices client w).1 = ∅
  ∧ calls (get_voices client w).2 = calls w ++ [ListVoices]
  ∧ page (get_voices client w).2
    = page w
      ++ [st_error (py "Could not fetch voices from Google API: ")
            (Some (format_error bad))].
Proof.
  intros Hcache Hreply Hgood Hbad.
  rewrite get_voices_miss, Hreply by done.
  by rewrite (for_voices_ill_formed good bad rest Hgood Hbad).
Qed.

Lemma get_voices_ill_formed_witness :
  (get_voices Sample.odd Sample.start).1 = ∅
  ∧ calls (get_voices Sample.odd Sample.start).2 = [ListVoices]
  ∧ page (get_voices Sample.odd Sample.start).2
    = [st_error (py "Could not fetch voices from Google API: ")
         (Some IndexError)].
Proof.
  apply (get_voices_ill_formed Sample.odd Sample.start
           [Sample.wavenet_f] Sample.no_language []).
  - reflexivity.
  - reflexivity.
  - apply List.Forall_cons; [split; [discriminate | by eexists] |].
    apply List.Forall_nil.
  - by intros [? _].
Defined.

(** ** The sidebar *)

Lemma str_leb_trans (a : str) :
  ∀ b c, str_leb a b = true → str_leb b c = true → str_leb a c = true.
Proof.
  induction a as [|x a IH]; intros [|y b] [|z c]; simpl; try done.
  destruct (N.ltb_spec x y), (N.ltb_spec y x), (N.ltb_spec y z),
    (N.ltb_spec z y), (N.ltb_spec x z), (N.ltb_spec z x);
    try done; try lia.
  apply IH.
Qed.

Lemma str_leb_total (a : str) :
  ∀ b, str_leb a b = true ∨ str_leb b a = true.
Proof.
  induction a as [|x a IH]; intros [|y b]; simpl; auto.
  destruct (N.ltb_spec x y), (N.ltb_spec y x); auto; lia.
Qed.

#[local] Instance str_le_trans : Transitive str_le.
Proof. intros a b c. apply str_leb_trans. Qed.

#[local] Instance str_le_total : Total str_le.
Proof. intros a b. apply str_leb_total. Qed.

Lemma elem_of_keys (m : Catalog) (language : str) :
  language ∈ keys m ↔ is_Some (m !! language).
Proof.
  unfold keys. rewrite list_elem_of_fmap. split.
  - intros ([l b] & -> & Hin). apply elem_of_map_to_list in Hin. by eexists.
  - intros [b Hb]. exists (language, b). split; [done|].
    by apply elem_of_map_to_list.
Qed.

Lemma elem_of_sorted (l : list str) (x : str) : x ∈ sorted l ↔ x ∈ l.
Proof. unfold sorted. by rewrite merge_sort_Permutation. Qed.

(** X6: the languages the selector offers are the keys of the catalogue,
    each once, in increasing order of code points. *)
Theorem language_options_sorted (m : Catalog) :
  StronglySorted str_le (sorted (keys m))
  ∧ NoDup (sorted (keys m))
  ∧ ∀ language, language ∈ sorted (keys m) ↔ is_Some (m !! language).
Proof.
  split; [|split].
  - apply StronglySorted_merge_sort; apply _.
  - unfold sorted. rewrite merge_sort_Permutation.
    apply NoDup_fst_map_to_list.
  - intros language. by rewrite elem_of_sorted, elem_of_keys.
Qed.

Lemma index_Some (x : str) (l : list str) (i : nat) :
  index x l = Some i → l !! i = Some x.
Proof.
  revert i. induction l as [|y l IH]; intros i; simpl; [done|].
  case_decide as Hy; [by intros [= <-]; subst|].
  destruct (index x l) as [j|]; simpl; [|done].
  intros [= <-]. by apply IH.
Qed.

Lemma index_None (x : str) (l : list str) : index x l = None ↔ x ∉ l.
Proof.
  induction l as [|y l IH]; simpl.
  - split; [intros _; apply not_elem_of_nil | done].
  - rewrite not_elem_of_cons. case_decide as Hy.
    + split; [done | by intros [? _]].
    + destruct (index x l) as [j|]; simpl.
      * split; [done|]. intros [_ Hx]. by apply IH in Hx.
      * split; [|done]. intros _. split; [done | by apply IH].
Qed.

(** X7: a catalogue that is not empty and has no "en-US" bucket stops the
    script: [index] raises the [ValueError] that nothing catches, whatever
    the user has picked. *)
Theorem sidebar_without_en_US (m : Catalog) (picks : Picks) :
  m ≠ ∅ →
  m !! py "en-US" = None →
  sidebar m picks = inl (NotInList (py "en-US")).
Proof.
  intros Hm Hen. unfold sidebar.
  rewrite bool_decide_eq_false_2 by done.
  assert (index (py "en-US") (sorted (keys m)) = None) as ->; [|done].
  apply index_None. rewrite elem_of_sorted, elem_of_keys, Hen.
  by intros [? ?].
Qed.

Lemma sidebar_without_en_US_witness :
  sidebar (get_voices Sample.french Sample.start).1 Sample.picked
  = inl (NotInList (py "en-US")).
Proof.
  apply (sidebar_without_en_US (get_voices Sample.french Sample.start).1
           Sample.picked).
  - intros H. by apply (f_equal (fun m : Catalog => m !! py "fr-FR")) in H.
  - by vm_compute.
Defined.

Lemma selectbox_elem_of {A} (options : list A) (i : nat) (pick : option nat)
    (o : A) :
  selectbox options i pick = Some o → o ∈ options.
Proof.
  unfold selectbox. intros H. apply list_elem_of_lookup.
  destruct pick as [k|]; [destruct (options !! k) eqn:Hk|]; simplify_eq; eauto.
Qed.

Lemma selectbox_is_Some {A} (options : list A) (i : nat) (pick : option nat) :
  is_Some (options !! i) → is_Some (selectbox options i pick).
Proof.
  unfold selectbox. intros Hi.
  destruct pick as [k|]; [destruct (options !! k)|]; eauto.
Qed.

(** Whatever the map of line 118 holds is a pair of the bucket. *)
Lemma voice_display_map_elem_of (voice_options : list (str * str))
    (name label : str) :
  voice_display_map voice_options !! label = Some name →
  (name, label) ∈ voice_options.
Proof.
  unfold voice_display_map.
  induction voice_options as [|[n l] options IH] using rev_ind.
  - simpl. by rewrite lookup_empty.
  - rewrite foldl_snoc, lookup_insert, elem_of_app, list_elem_of_singleton.
    case_decide as Hl; [intros [= <-]; subst; by right | by left; apply IH].
Qed.

(** Every display name of the bucket is a key of the map. *)
Lemma voice_display_map_is_Some (voice_options : list (str * str))
    (label : str) :
  label ∈ voice_selector_options voice_options →
  is_Some (voice_display_map voice_options !! label).
Proof.
  unfold voice_display_map, voice_selector_options.
  induction voice_options as [|[n l] options IH] using rev_ind.
  - by intros ?%not_elem_of_nil.
  - rewrite fmap_app, foldl_snoc, lookup_insert, elem_of_app.
    simpl. rewrite list_elem_of_singleton.
    case_decide as Hl; [by eexists|].
    intros [Hin|Heq]; [by apply IH | done].
Qed.

(** A slider stays between its bounds. *)
Lemma slider_range (min_value max_value value step : Q) (pick : option nat) :
  (min_value <= value)%Q → (value <= max_value)%Q → (0 <= step)%Q →
  (min_value <= slider min_value max_value value step pick)%Q
  ∧ (slider min_value max_value value step pick <= max_value)%Q.
Proof.
  intros Hmin Hmax Hstep. unfold slider.
  destruct pick as [k|]; [|done].
  destruct (Qle_bool _ max_value) eqn:Hle; [|done].
  apply Qle_bool_iff in Hle. split; [|done].
  rewrite <- (Qplus_0_r min_value) at 1.
  apply Qplus_le_r. apply Qmult_le_0_compat; [|done].
  unfold Qle. simpl. lia.
Qed.

(** What the sidebar has read when it sets its variables. *)
Lemma sidebar_Some_inv (m : Catalog) (picks : Picks) (s : Selection) :
  sidebar m picks = inr (Some s) →
  ∃ bucket label,
    m !! selected_language s = Some bucket
    ∧ voice_display_map bucket !! label = Some (selected_voice_name s)
    ∧ selected_speaking_rate s = slider (1 # 4) 4 1 (1 # 4) (pick_rate picks)
    ∧ selected_pitch s = slider (- (20)) 20 0 1 (pick_pitch picks).
Proof.
  unfold sidebar. destruct (bool_decide (m = ∅)); [done|].
  destruct (index _ _) as [i|]; [|done].
  destruct (selectbox _ i _) as [language|]; [|done].
  destruct (m !! language) as [bucket|] eqn:Hbucket; [|done].
  destruct (selectbox _ 0%nat _) as [label|]; [|done].
  destruct (voice_display_map bucket !! label) as [name|] eqn:Hname; [|done].
  intros [= <-]. simpl. by exists bucket, label.
Qed.

(** X8: whatever the user picks, the variables the sidebar sets satisfy
    the preconditions of a request: the voice is a voice of the bucket of
    the selected language, the rate lies in [0.25, 4.0] and the pitch in
    [-20.0, 20.0]. *)
Theorem sidebar_selection_sound (m : Catalog) (picks : Picks) (s : Selection) :
  sidebar m picks = inr (Some s) →
  (∃ bucket label,
      m !! selected_language s = Some bucket
      ∧ (selected_voice_name s, label) ∈ bucket)
  ∧ rate_in_range (selected_speaking_rate s)
  ∧ pitch_in_range (selected_pitch s).
Proof.
  intros (bucket & label & Hbucket & Hname & -> & ->)%sidebar_Some_inv.
  split; [|split].
  - exists bucket, label. split; [done|].
    by apply voice_display_map_elem_of.
  - by apply slider_range.
  - by apply slider_range.
Qed.

Lemma sidebar_selection_sound_witness :
  (∃ bucket label,
      (get_voices Sample.client Sample.start).1 !! py "fr-FR" = Some bucket
      ∧ (py "fr-FR-Standard-A", label) ∈ bucket)
  ∧ rate_in_range (32 # 16)
  ∧ pitch_in_range (- (5)).
Proof.
  apply (sidebar_selection_sound (get_voices Sample.client Sample.start).1
           Sample.picked
           {| selected_language := py "fr-FR";
              selected_voice_name := py "fr-FR-Standard-A";
              selected_speaking_rate := 32 # 16;
              selected_pitch := - (5) |}).
  by vm_compute.
Defined.

(** With buckets that are not empty, no subscript of the sidebar fails. *)
Lemma sidebar_lookups (m : Catalog) (picks : Picks) :
  (∀ language bucket, m !! language = Some bucket → bucket ≠ []) →
  sidebar m picks ≠ inl KeyError.
Proof.
  intros Hbuckets. unfold sidebar.
  destruct (bool_decide (m = ∅)); [done|].
  destruct (index _ _) as [i|] eqn:Hi; [|done].
  apply index_Some in Hi.
  destruct (selectbox_is_Some (sorted (keys m)) i (pick_language picks))
    as [language Hlanguage]; [by eexists|].
  rewrite Hlanguage.
  apply selectbox_elem_of in Hlanguage.
  rewrite elem_of_sorted, elem_of_keys in Hlanguage.
  destruct Hlanguage as [bucket Hbucket]. rewrite Hbucket.
  pose proof (Hbuckets _ _ Hbucket) as Hne.
  destruct (selectbox_is_Some (voice_selector_options bucket) 0
              (pick_voice picks)) as [label Hlabel].
  { destruct bucket; [done | by eexists]. }
  rewrite Hlabel. apply selectbox_elem_of in Hlabel.
  by destruct (voice_display_map_is_Some bucket label Hlabel) as [name ->].
Qed.

(** X9: on the catalogue of a first call of [get_voices], the sidebar
    never fails on a subscript: it raises no [KeyError], whatever the user
    picks. *)
Theorem sidebar_no_KeyError (client : Client) (w w' : World) (m : Catalog)
    (picks : Picks) :
  cache w = None →
  get_voices client w = (m, w') →
  sidebar m picks ≠ inl KeyError.
Proof.
  intros Hcache Hget. apply sidebar_lookups.
  intros language bucket Hbucket.
  destruct (get_voices_miss_catalog _ _ _ _ Hcache Hget)
    as [->|(voice_list & _ & Hloop)]; [by rewrite lookup_empty in Hbucket|].
  destruct (for_voices_Returned _ _ _ Hloop) as (es & _ & Hm).
  rewrite Hm, lookup_empty in Hbucket. unfold extend in Hbucket.
  destruct (bucket_of language es); [done|].
  by injection Hbucket as <-.
Qed.

Lemma sidebar_no_KeyError_witness :
  sidebar (get_voices Sample.client Sample.start).1 Sample.picked
  ≠ inl KeyError.
Proof.
  apply (sidebar_no_KeyError Sample.client Sample.start
           (get_voices Sample.client Sample.start).2
           (get_voices Sample.client Sample.start).1 Sample.picked);
    reflexivity.
Defined.

(** In a bucket of the catalogue of a first call, a display name stands
    for one name. *)
Lemma get_voices_labels (client : Client) (w w' : World) (m : Catalog)
    (language : str) (bucket : list (str * str)) :
  cache w = None →
  get_voices client w = (m, w') →
  m !! language = Some bucket →
  ∀ name1 name2 label,
    (name1, label) ∈ bucket → (name2, label) ∈ bucket → name1 = name2.
Proof.
  intros Hcache Hget Hbucket name1 name2 label H1 H2.
  destruct (get_voices_pairs _ _ _ _ _ _ _ Hcache Hget Hbucket H1) as [v1 Hv1].
  destruct (get_voices_pairs _ _ _ _ _ _ _ Hcache Hget Hbucket H2) as [v2 Hv2].
  apply entry_of_pair in Hv1 as (g1 & _ & [= -> ->]).
  apply entry_of_pair in Hv2 as (g2 & _ & [= -> Hlabel]).
  by apply display_name_of_inj in Hlabel.
Qed.

(** X10: the selectors select what they show.  On the catalogue of a first
    call of [get_voices] that has an "en-US" bucket, picking the language
    at a position of the sorted languages and the voice at a position of
    its bucket sets the variables to that language and to the name of that
    voice. *)
Theorem sidebar_picks (client : Client) (w w' : World) (m : Catalog)
    (picks : Picks) (i k : nat) (language : str)
    (bucket : list (str * str)) (name label : str) :
  cache w = None →
  get_voices client w = (m, w') →
  is_Some (m !! py "en-US") →
  pick_language picks = Some i →
  sorted (keys m) !! i = Some language →
  m !! language = Some bucket →
  pick_voice picks = Some k →
  bucket !! k = Some (name, label) →
  ∃ s, sidebar m picks = inr (Some s)
       ∧ selected_language s = language
       ∧ selected_voice_name s = name.
Proof.
  intros Hcache Hget Hen Hpick Hi Hbucket Hpickv Hk.
  unfold sidebar.
  rewrite bool_decide_eq_false_2.
  2: { intros ->. rewrite lookup_empty in Hen. by destruct Hen. }
  destruct (index (py "en-US") (sorted (keys m))) as [j|] eqn:Hj.
  2: { apply index_None in Hj. rewrite elem_of_sorted, elem_of_keys in Hj. done. }
  unfold selectbox at 1. rewrite Hpick, Hi, Hbucket.
  unfold selectbox, voice_selector_options.
  rewrite Hpickv, list_lookup_fmap, Hk. simpl.
  assert (voice_display_map bucket !! label = Some name) as ->.
  { apply voice_display_map_lookup.
    - by eapply get_voices_labels.
    - apply list_elem_of_lookup. by exists k. }
  by eexists.
Qed.

Lemma sidebar_picks_witness :
  ∃ s, sidebar (get_voices Sample.client Sample.start).1 Sample.picked
       = inr (Some s)
       ∧ selected_language s = py "fr-FR"
       ∧ selected_voice_name s = py "fr-FR-Standard-A".
Proof.
  apply (sidebar_picks Sample.client Sample.start
           (get_voices Sample.client Sample.start).2
           (get_voices Sample.client Sample.start).1 Sample.picked
           1 0 (py "fr-FR")
           [(py "fr-FR-Standard-A", py "fr-FR-Standard-A (Male)")]
           (py "fr-FR-Standard-A") (py "fr-FR-Standard-A (Male)")).
  - reflexivity.
  - reflexivity.
  - vm_compute. by eexists.
  - reflexivity.
  - by vm_compute.
  - by vm_compute.
  - reflexivity.
  - reflexivity.
Defined.

(** ** A press of the button *)

Lemma generate_audio_checked (client : Client) (input_text : str)
    (available_voices : Catalog) (name : str) (rate semitones : Q) (w : World) :
  ¬ blank input_text →
  available_voices ≠ ∅ →
  generate_audio client input_text available_voices name rate semitones w
  = (do audio_content <- synthesize_speech client input_text name rate semitones;
     match audio_content with
     | Some (b :: data) =>
         run render (st_success (py "Audio generated successfully!"));
         run render (st_audio (b :: data) (py "audio/mp3"));
         render (st_download_button (py "Download MP3") (b :: data)
                   (py "generated_speech.mp3") (py "audio/mpeg"))
     | _ =>
         render (st_error
                   (py "Failed to generate audio. Please check the logs or your API credentials.")
                   None)
     end) w.
Proof.
  intros Hblank Hvoices. unfold generate_audio.
  destruct (truthy (strip input_text)) eqn:Htext.
  2: { apply truthy_false, strip_nil_iff in Htext. done. }
  simpl. by rewrite bool_decide_eq_false_2.
Qed.

(** X11: audio of no byte counts as a failure.  When the checks pass, the
    request can be built and the provider answers the synthesis with empty
    audio, the page shows the failure message and neither player nor
    download button, although no call has failed. *)
Theorem generate_audio_empty_audio (client : Client) (input_text : str)
    (available_voices : Catalog) (name : str) (rate semitones : Q) (w : World) :
  ¬ blank input_text →
  available_voices ≠ ∅ →
  encodable input_text = true →
  encodable name = true →
  synthesize_speech_reply client (calls w)
    (synthesis_request input_text name rate semitones)
  = Returned {| audio_content := [] |} →
  page (generate_audio client input_text available_voices name rate
          semitones w).2
  = page w
    ++ [st_error
          (py "Failed to generate audio. Please check the logs or your API credentials.")
          None].
Proof.
  intros Hblank Hvoices Htxt Hname Hreply.
  rewrite generate_audio_checked by done.
  unfold bind. rewrite synthesize_speech_run, Htxt, Hname. simpl.
  by rewrite Hreply.
Qed.

Lemma generate_audio_empty_audio_witness :
  page (generate_audio Sample.silent (py "Hello") Sample.catalog
          (py "en-US-Wavenet-F") 1 0 Sample.start).2
  = [st_error
       (py "Failed to generate audio. Please check the logs or your API credentials.")
       None].
Proof.
  apply (generate_audio_empty_audio Sample.silent (py "Hello") Sample.catalog
           (py "en-US-Wavenet-F") 1 0 Sample.start).
  - intros H. apply (bool_decide_pack _) in H. by vm_compute in H.
  - intros H. by apply (f_equal (fun m : Catalog => m !! py "en-US")) in H.
  - reflexivity.
  - reflexivity.
  - reflexivity.
Defined.

(** X12: when the checks pass, the request can be built and the synthesis
    call fails, the page shows two errors, the one of [synthesize_speech]
    with the provider's exception and then the failure message of the
    handler, and nothing else; one call has been issued. *)
Theorem generate_audio_provider_failure (client : Client) (input_text : str)
    (available_voices : Catalog) (name : str) (rate semitones : Q) (w : World)
    (e : Exception) :
  ¬ blank input_text →
  available_voices ≠ ∅ →
  encodable input_text = true →
  encodable name = true →
  synthesize_speech_reply client (calls w)
    (synthesis_request input_text name rate semitones)
  = Raised e →
  generate_audio client input_text available_voices name rate semitones w
  = (tt,
     {| calls := calls w
                 ++ [SynthesizeSpeech
                       (synthesis_request input_text name rate semitones)];
        page := page w
                ++ [st_error (py "API call failed: ") (Some e);
                    st_error
                      (py "Failed to generate audio. Please check the logs or your API credentials.")
                      None];
        cache := cache w |}).
Proof.
  intros Hblank Hvoices Htxt Hname Hreply.
  rewrite generate_audio_checked by done.
  unfold bind. rewrite synthesize_speech_run, Htxt, Hname. simpl.
  rewrite Hreply. unfold render. simpl. by rewrite <- app_assoc.
Qed.

Lemma generate_audio_provider_failure_witness :
  generate_audio Sample.down (py "Hello") Sample.catalog
    (py "en-US-Wavenet-F") 1 0 Sample.start
  = (tt,
     {| calls := [SynthesizeSpeech
                    (synthesis_request (py "Hello") (py "en-US-Wavenet-F") 1 0)];
        page := [st_error (py "API call failed: ")
                   (Some (ApiError (py "503 unavailable")));
                 st_error
                   (py "Failed to generate audio. Please check the logs or your API credentials.")
                   None];
        cache := None |}).
Proof.
  apply (generate_audio_provider_failure Sample.down (py "Hello")
           Sample.catalog (py "en-US-Wavenet-F") 1 0 Sample.start
           (ApiError (py "503 unavailable"))).
  - intros H. apply (bool_decide_pack _) in H. by vm_compute in H.
  - intros H. by apply (f_equal (fun m : Catalog => m !! py "en-US")) in H.
  - reflexivity.
  - reflexivity.
  - reflexivity.
Defined.

(** X13: a press of the button never goes unanswered and never lists the
    voices: it adds at least one element to the page, keeps what the page
    showed, and issues at most one call, a synthesis. *)
Theorem generate_audio_answers (client : Client) (input_text : str)
    (available_voices : Catalog) (name : str) (rate semitones : Q) (w : World) :
  let w' := (generate_audio client input_text available_voices name rate
               semitones w).2 in
  ∃ elements new,
    page w' = page w ++ elements
    ∧ elements ≠ []
    ∧ calls w' = calls w ++ new
    ∧ (length new ≤ 1)%nat
    ∧ ListVoices ∉ new.
Proof.
  intros w'. subst w'. unfold generate_audio.
  destruct (negb _).
  { eexists [_], []. simpl. rewrite app_nil_r.
    repeat split; [done | lia | apply not_elem_of_nil]. }
  destruct (bool_decide _).
  { eexists [_], []. simpl. rewrite app_nil_r.
    repeat split; [done | lia | apply not_elem_of_nil]. }
  unfold bind. rewrite synthesize_speech_run.
  destruct (encodable input_text && encodable name); simpl.
  - unfold render, bind, ret.
    destruct (synthesize_speech_reply _ _ _) as [[[|b data]]|e]; simpl;
      rewrite <- ?app_assoc; simpl;
      eexists _, [_]; (repeat split; [done | simpl; lia |]);
      by intros [=]%list_elem_of_singleton.
  - unfold render. simpl. rewrite <- app_assoc. simpl.
    eexists [_; _], []. rewrite app_nil_r.
    split; [done|]. split; [done|]. split; [done|].
    split; [simpl; lia | apply not_elem_of_nil].
Qed.

(** ** A run of the script *)

Lemma requests_app (a b : list Rpc) : requests (a ++ b) = requests a ++ requests b.
Proof. apply omap_app. Qed.

Lemma get_voices_calls (client : Client) (w : World) :
  ∃ new, calls (get_voices client w).2 = calls w ++ new ∧ requests new = [].
Proof.
  destruct (cache w) as [[m rendered]|] eqn:Hcache.
  - rewrite (get_voices_hit _ _ _ _ Hcache). exists []. simpl.
    by rewrite app_nil_r.
  - rewrite get_voices_miss by done. exists [ListVoices].
    destruct (list_voices_reply client (calls w)) as [voice_list|e];
      [destruct (for_voices ∅ voice_list)|]; done.
Qed.

Lemma generate_audio_calls (client : Client) (input_text : str)
    (available_voices : Catalog) (name : str) (rate semitones : Q) (w : World) :
  calls (generate_audio client input_text available_voices name rate
           semitones w).2
  = calls w
    ++ if decide (blank input_text ∨ available_voices = ∅) then []
       else if encodable input_text && encodable name then
         [SynthesizeSpeech (synthesis_request input_text name rate semitones)]
       else [].
Proof.
  unfold generate_audio.
  destruct (truthy (strip input_text)) eqn:Htext; simpl.
  2: { apply truthy_false, strip_nil_iff in Htext.
       rewrite decide_True by auto. simpl. by rewrite app_nil_r. }
  assert (¬ blank input_text) as Hblank.
  { intros H%strip_nil_iff. by rewrite H in Htext. }
  destruct (decide (available_voices = ∅)) as [->|Hvoices].
  { rewrite bool_decide_eq_true_2, decide_True by auto. simpl.
    by rewrite app_nil_r. }
  rewrite bool_decide_eq_false_2, decide_False by tauto.
  unfold bind. rewrite synthesize_speech_run.
  destruct (encodable input_text && encodable name); simpl.
  - destruct (synthesize_speech_reply _ _ _) as [[[|b data]]|e]; reflexivity.
  - by rewrite app_nil_r.
Qed.

Lemma sidebar_None_inv (m : Catalog) (picks : Picks) :
  sidebar m picks = inr None → m = ∅.
Proof.
  unfold sidebar. case_bool_decide; [done|].
  destruct (index _ _); [|done]. destruct (selectbox _ _ _); [|done].
  destruct (m !! _); [|done]. destruct (selectbox _ _ _); [|done].
  by destruct (voice_display_map _ !! _).
Qed.

(** X14: every request a run of the script sends meets the preconditions
    the code never checks by itself.  In one run at most one synthesis is
    requested, only after a press of the button, for the text as typed and
    not blank, for a voice of the catalogue [get_voices] returned, with a
    rate in [0.25, 4.0] and a pitch in [-20.0, 20.0]. *)
Theorem run_page_requests (client : Client) (picks : Picks) (input_text : str)
    (pressed : bool) (w : World) :
  ∃ new,
    calls (run_page client picks input_text pressed w).2 = calls w ++ new
    ∧ (length (requests new) ≤ 1)%nat
    ∧ Forall
        (fun request =>
           pressed = true
           ∧ text (input request) = input_text
           ∧ ¬ blank input_text
           ∧ known_voice (get_voices client w).1 (voice_name (voice request))
           ∧ rate_in_range (speaking_rate (audio_config request))
           ∧ pitch_in_range (pitch (audio_config request)))
        (requests new).
Proof.
  destruct (get_voices_calls client w) as (pre & Hpre & Hrequests).
  unfold run_page, bind.
  destruct (get_voices client w) as [m w1]. simpl in *.
  destruct (sidebar m picks) as [e|[s|]] eqn:Hsidebar.
  - exists pre. rewrite Hrequests. simpl. by repeat split; [| lia |].
  - destruct pressed.
    2: { exists pre. rewrite Hrequests. simpl. by repeat split; [| lia |]. }
    pose proof (generate_audio_calls client input_text m (selected_voice_name s)
                  (selected_speaking_rate s) (selected_pitch s) w1) as Hcalls.
    destruct (generate_audio _ _ _ _ _ _ w1) as [[] w2]. simpl in *.
    rewrite Hcalls, Hpre, <- app_assoc. eexists. split; [done|].
    rewrite requests_app, Hrequests. simpl.
    case_decide as Hchecks; simpl; [by split; [lia|]|].
    destruct (encodable input_text && encodable _); simpl; [|by split; [lia|]].
    split; [lia|]. apply Forall_singleton.
    apply sidebar_Some_inv in Hsidebar
      as (bucket & label & Hbucket & Hname & -> & ->).
    repeat split; try (by apply slider_range); [tauto|].
    exists (selected_language s), bucket, label. split; [done|].
    by apply voice_display_map_elem_of.
  - apply sidebar_None_inv in Hsidebar as ->.
    destruct pressed.
    2: { exists pre. rewrite Hrequests. simpl. by repeat split; [| lia |]. }
    pose proof (generate_audio_calls client input_text ∅ [] 0 0 w1) as Hcalls.
    destruct (generate_audio _ _ _ _ _ _ w1) as [[] w2]. simpl in *.
    rewrite decide_True in Hcalls by auto.
    rewrite Hcalls, Hpre, <- app_assoc. eexists. split; [done|].
    rewrite requests_app, Hrequests. simpl. by split; [lia|].
Qed.

(** The languages of the catalogue of a first call are the first language
    codes of the voices. *)
Lemma for_voices_languages (voice_list : list Voice) (m : Catalog)
    (language : str) :
  for_voices ∅ voice_list = Returned m →
  is_Some (m !! language)
  ↔ ∃ v, v ∈ voice_list ∧ first_language v = Some language.
Proof.
  intros Hloop.
  destruct (for_voices_Returned _ _ _ Hloop) as (es & Hes & Hm).
  rewrite Hm, lookup_empty.
  pose proof (bucket_of_voices language _ _ Hes) as Hbucket.
  apply Forall2_length in Hbucket.
  unfold extend. destruct (bucket_of language es) as [|p ps]; simpl in *.
  - apply length_zero_iff_nil in Hbucket. split; [by intros [? ?]|].
    intros (v & Hin & Hv).
    by pose proof (filter_nil_not_elem_of _ _ _ Hbucket Hv).
  - split; [|by eexists]. intros _.
    destruct (filter _ voice_list) as [|v vs] eqn:Hfilter; [done|].
    assert (v ∈ filter (fun v => first_language v = Some language) voice_list)
      as [Hv Hin]%list_elem_of_filter
      by (rewrite Hfilter; apply list_elem_of_here).
    by exists v.
Qed.

(** X15: when the provider lists voices and "en-US" is the first language
    code of none of them, every run of the script ends in the [ValueError]
    of line 113, before the text area and the button are reached; the list
    call is the only call of the run, no synthesis is requested. *)
Theorem run_page_without_en_US (client : Client) (picks : Picks)
    (input_text : str) (pressed : bool) (w : World) (voice_list : list Voice) :
  cache w = None →
  list_voices_reply client (calls w) = Returned voice_list →
  voice_list ≠ [] →
  Forall well_formed voice_list →
  Forall (fun v => first_language v ≠ Some (py "en-US")) voice_list →
  (run_page client picks input_text pressed w).1 = inl (NotInList (py "en-US"))
  ∧ calls (run_page client picks input_text pressed w).2
    = calls w ++ [ListVoices].
Proof.
  intros Hcache Hreply Hne Hwf Hen.
  destruct (for_voices_well_formed voice_list Hwf ∅) as [m Hloop].
  unfold run_page, bind.
  rewrite get_voices_miss, Hreply, Hloop by done.
  assert (sidebar m picks = inl (NotInList (py "en-US"))) as ->; [|done].
  unfold sidebar.
  rewrite bool_decide_eq_false_2.
  2: { intros ->. destruct voice_list as [|v vs]; [done|].
       apply Forall_cons in Hwf as [Hv _].
       apply well_formed_entry in Hv as [[l p] Hentry].
       assert (first_language v = Some l) as Hl.
       { unfold entry_of in Hentry. destruct (first_language v); [|done].
         destruct (SsmlVoiceGender_of _); [|done]. by injection Hentry as -> _. }
       assert (is_Some ((∅ : Catalog) !! l)) as [? Hsome].
       { apply (for_voices_languages _ _ _ Hloop). exists v.
         split; [apply list_elem_of_here | done]. }
       by rewrite lookup_empty in Hsome. }
  assert (index (py "en-US") (sorted (keys m)) = None) as ->; [|done].
  apply index_None. rewrite elem_of_sorted, elem_of_keys.
  rewrite (for_voices_languages _ _ _ Hloop).
  intros (v & Hin & Hv). rewrite Forall_forall in Hen. by apply (Hen v).
Qed.

Lemma run_page_without_en_US_witness :
  (run_page Sample.french Sample.no_pick (py "Bonjour") true Sample.start).1
  = inl (NotInList (py "en-US"))
  ∧ calls (run_page Sample.french Sample.no_pick (py "Bonjour") true
             Sample.start).2
    = [ListVoices].
Proof.
  apply (run_page_without_en_US Sample.french Sample.no_pick (py "Bonjour")
           true Sample.start [Sample.standard_a]).
  - reflexivity.
  - reflexivity.
  - discriminate.
  - apply List.Forall_cons; [split; [discriminate | by eexists] |].
    apply List.Forall_nil.
  - apply List.Forall_cons; [by vm_compute | apply List.Forall_nil].
Defined.

(** X16: when the list call fails, the script goes on: the run ends
    normally, and a press of the button with text that is not blank shows,
    after the error of [get_voices], that the voice list is unavailable;
    the list call is the only call. *)
Theorem run_page_provider_down (client : Client) (picks : Picks)
    (input_text : str) (w : World) (e : Exception) :
  cache w = None →
  list_voices_reply client (calls w) = Raised e →
  ¬ blank input_text →
  (run_page client picks input_text true w).1 = inr tt
  ∧ calls (run_page client picks input_text true w).2 = calls w ++ [ListVoices]
  ∧ page (run_page client picks input_text true w).2
    = page w
      ++ [st_error (py "Could not fetch voices from Google API: ") (Some e);
          st_error
            (py "Cannot generate audio because voice list is unavailable.")
            None].
Proof.
  intros Hcache Hreply Hblank.
  unfold run_page, bind.
  rewrite get_voices_miss, Hreply by done. simpl.
  unfold sidebar. rewrite bool_decide_eq_true_2 by done.
  unfold generate_audio.
  destruct (truthy (strip input_text)) eqn:Htext.
  2: { apply truthy_false, strip_nil_iff in Htext. done. }
  simpl. rewrite bool_decide_eq_true_2 by done.
  simpl. by rewrite <- app_assoc.
Qed.

Lemma run_page_provider_down_witness :
  (run_page Sample.down Sample.no_pick (py "Hello") true Sample.start).1
  = inr tt
  ∧ calls (run_page Sample.down Sample.no_pick (py "Hello") true
             Sample.start).2
    = [ListVoices]
  ∧ page (run_page Sample.down Sample.no_pick (py "Hello") true
            Sample.start).2
    = [st_error (py "Could not fetch voices from Google API: ")
         (Some (ApiError (py "503 unavailable")));
       st_error
         (py "Cannot generate audio because voice list is unavailable.")
         None].
Proof.
  apply (run_page_provider_down Sample.down Sample.no_pick (py "Hello")
           Sample.start (ApiError (py "503 unavailable"))).
  - reflexivity.
  - reflexivity.
  - intros H. apply (bool_decide_pack _) in H. by vm_compute in H.
Defined.
